(** * The in-memory todo store of task-tracker (lib/store.js)

    A shallow embedding of the store module: the record collection, the
    identifier counter and the query cache, with the exported operations
    [getTodos], [createTodo], [updateTodo], [toggleTodo], [deleteTodo],
    [bulkToggleTodos], [bulkDeleteTodos], [getTodoStats] and
    [clearAllTodos].

    JavaScript objects and arrays are references: the store, the cache and
    the callers share them.  The model therefore keeps two heaps, one of
    record objects and one of arrays, and every array holds references to
    record objects. *)

From Stdlib Require Import Ascii String NArith Lia Bool Sorted.
From stdpp Require Import base tactics option list gmap strings pretty.

Local Open Scope N_scope.
Local Open Scope nat_scope.

(** ** JavaScript strings

    A JavaScript string is a sequence of UTF-16 code units.  The model
    covers the strings whose code units are all below 256 (Latin-1): on
    them [trim], [toLowerCase] and [includes] act unit by unit, as defined
    below. *)

Module JsString.

(** Code units that [String.prototype.trim] strips: TAB, LF, VT, FF, CR,
    SPACE and NBSP (the white space and line terminators below 256). *)
Definition isWhiteSpace (c : ascii) : bool :=
  let n := N_of_ascii c in
  ((9 <=? n) && (n <=? 13) || (n =? 32) || (n =? 160))%N.

Definition isEmpty (s : string) : bool :=
  match s with EmptyString => true | String _ _ => false end.

Fixpoint trimStart (s : string) : string :=
  match s with
  | EmptyString => EmptyString
  | String c s' => if isWhiteSpace c then trimStart s' else s
  end.

Fixpoint trimEnd (s : string) : string :=
  match s with
  | EmptyString => EmptyString
  | String c s' =>
      let r := trimEnd s' in
      if isWhiteSpace c && isEmpty r then EmptyString else String c r
  end.

Definition trim (s : string) : string := trimEnd (trimStart s).

(** Lower-casing of one Latin-1 code unit: A-Z and the accented capitals
    U+00C0..U+00DE (except the multiplication sign U+00D7) move up by 32. *)
Definition lowerUnit (c : ascii) : ascii :=
  let n := N_of_ascii c in
  if ((65 <=? n) && (n <=? 90) ||
      (192 <=? n) && (n <=? 222) && negb (n =? 215))%N
  then ascii_of_N (n + 32) else c.

Fixpoint toLowerCase (s : string) : string :=
  match s with
  | EmptyString => EmptyString
  | String c s' => String (lowerUnit c) (toLowerCase s')
  end.

Fixpoint startsWith (s p : string) {struct p} : bool :=
  match p, s with
  | EmptyString, _ => true
  | String _ _, EmptyString => false
  | String b p', String a s' => Ascii.eqb a b && startsWith s' p'
  end.

(** [s.includes(sub)]: [sub] occurs in [s] at some position. *)
Fixpoint includes (s sub : string) : bool :=
  startsWith s sub ||
  match s with
  | EmptyString => false
  | String _ s' => includes s' sub
  end.

(** The substring relation that [includes] decides. *)
Definition contains (s sub : string) : Prop :=
  ∃ pre post, s = pre +:+ sub +:+ post.

End JsString.

(** ** JSON.stringify on the filter object

    [getCacheKey] serialises [{ status, q }]; on an object with two string
    fields the result is [{"status":<quoted status>,"q":<quoted q>}]. *)

Module Json.

Definition dquote : ascii := "034"%char.
Definition backslash : ascii := "092"%char.

Definition hexDigit (n : N) : ascii :=
  (if n <? 10 then ascii_of_N (48 + n) else ascii_of_N (87 + n))%N.

(** QuoteJSONString on one code unit. *)
Definition escapeUnit (c : ascii) : string :=
  let n := N_of_ascii c in
  (if n =? 8 then String backslash "b"
   else if n =? 9 then String backslash "t"
   else if n =? 10 then String backslash "n"
   else if n =? 12 then String backslash "f"
   else if n =? 13 then String backslash "r"
   else if n =? 34 then String backslash (String dquote "")
   else if n =? 92 then String backslash (String backslash "")
   else if n <? 32 then
     String backslash
       (String "u" (String "0" (String "0"
          (String (hexDigit (n / 16)) (String (hexDigit (n mod 16)) "")))))
   else String c "")%N.

Fixpoint escape (s : string) : string :=
  match s with
  | EmptyString => EmptyString
  | String c s' => escapeUnit c +:+ escape s'
  end.

Definition quote (s : string) : string :=
  String dquote (escape s +:+ String dquote "").

(** [JSON.stringify({ status, q })]. *)
Definition stringify (status q : string) : string :=
  "{" +:+ quote "status" +:+ ":" +:+ quote status +:+ "," +:+
  quote "q" +:+ ":" +:+ quote q +:+ "}".

(** A reader for the text [escape] writes, used to show that distinct
    filters never share a key.  [unescapeUnit] reads one escaped unit. *)
Definition unhex (c : ascii) : option N :=
  let n := N_of_ascii c in
  (if (48 <=? n) && (n <=? 57) then Some (n - 48)
   else if (97 <=? n) && (n <=? 102) then Some (n - 87)
   else None)%N.

Definition unescapeUnit (s : string) : option (ascii * string) :=
  match s with
  | EmptyString => None
  | String c r =>
      if Ascii.eqb c dquote then None
      else if Ascii.eqb c backslash then
        match r with
        | String "b" r' => Some ("008"%char, r')
        | String "t" r' => Some ("009"%char, r')
        | String "n" r' => Some ("010"%char, r')
        | String "f" r' => Some ("012"%char, r')
        | String "r" r' => Some ("013"%char, r')
        | String "u" (String "0" (String "0" (String h (String l r')))) =>
            match unhex h, unhex l with
            | Some a, Some b => Some (ascii_of_N (16 * a + b), r')
            | _, _ => None
            end
        | String e r' =>
            if Ascii.eqb e dquote then Some (dquote, r')
            else if Ascii.eqb e backslash then Some (backslash, r')
            else None
        | EmptyString => None
        end
      else Some (c, r)
  end.

End Json.

(** ** The JavaScript [Map]

    A [Map] iterates in insertion order, and [set] on a present key keeps
    the key's position: an association list without repeated keys. *)

Module JsMap.
Section map_ops.
Context {V : Type}.
Implicit Types (m : list (string * V)) (k : string) (v : V).

Fixpoint get k m : option V :=
  match m with
  | [] => None
  | (k', v) :: m' => if String.eqb k' k then Some v else get k m'
  end.

Definition has k m : bool :=
  match get k m with Some _ => true | None => false end.

Fixpoint set k v m : list (string * V) :=
  match m with
  | [] => [(k, v)]
  | (k', v') :: m' =>
      if String.eqb k' k then (k, v) :: m' else (k', v') :: set k v m'
  end.

Fixpoint delete k m : list (string * V) :=
  match m with
  | [] => []
  | (k', v') :: m' =>
      if String.eqb k' k then m' else (k', v') :: delete k m'
  end.

Definition size m : nat := length m.

(** [m.keys()], and [m.keys().next().value] ([None] when empty). *)
Definition keys m : list string := m.*1.
Definition firstKey m : option string := head (keys m).

Definition clear m : list (string * V) := [].
End map_ops.
End JsMap.

(** ** The store *)

(** A todo record.  [createdAt] is the ISO text of the creation time. *)
Record Todo := mkTodo {
  id : N;
  title : string;
  description : string;
  completed : bool;
  createdAt : string
}.

Global Instance Todo_inhabited : Inhabited Todo :=
  populate (mkTodo 0%N "" "" false "").

Global Instance Todo_eq_dec : EqDecision Todo.
Proof. solve_decision. Defined.

(** References into the two heaps. *)
Abbreviation objref := nat (only parsing).
Abbreviation arrref := nat (only parsing).

(** The module state of lib/store.js.

    - [objs]: the heap of record objects; a reference is an index, and a
      new object takes the next index.
    - [arrs]: the heap of arrays of record references.
    - [todos]: the array the variable [todos] currently points to.
    - [idCounter]: the next identifier.  (A JavaScript number; the model
      takes it as a natural number, exact below 2^53.)
    - [queryCache]: the [Map] from cache keys to result arrays. *)
Record Store := mkStore {
  objs : list Todo;
  arrs : list (list objref);
  todos : arrref;
  idCounter : N;
  queryCache : list (string * arrref)
}.

Definition CACHE_SIZE_LIMIT : nat := 50.

(** Module initialisation: [todos = []], [idCounter = 1], an empty cache. *)
Definition init : Store :=
  {| objs := []; arrs := [[]]; todos := 0; idCounter := 1%N; queryCache := [] |}.

(** Dereferencing. *)
Definition getObj (st : Store) (l : objref) : Todo := objs st !!! l.
Definition getArr (st : Store) (a : arrref) : list objref := arrs st !!! a.

(** The records an array shows, in order. *)
Definition view (st : Store) (a : arrref) : list Todo :=
  getObj st <$> getArr st a.

(** The record collection: what [todos] shows. *)
Definition records (st : Store) : list Todo := view st (todos st).

(** A result of an operation: a value, or a thrown [Error] with its
    message. *)
Inductive outcome (A : Type) : Type :=
  | Return (a : A)
  | Throw (msg : string).
Arguments Return {A} a.
Arguments Throw {A} msg.

(** [clearCache] *)
Definition clearCache (st : Store) : Store :=
  {| objs := objs st; arrs := arrs st; todos := todos st;
     idCounter := idCounter st; queryCache := JsMap.clear (queryCache st) |}.

(** [getCacheKey] *)
Definition getCacheKey (status q : string) : string := Json.stringify status q.

(** The two filter callbacks of [getTodos]. *)
Definition statusCallback (status : string) (todo : Todo) : bool :=
  let isCompleted := String.eqb status "completed" in
  Bool.eqb (completed todo) isCompleted.

Definition searchCallback (query : string) (todo : Todo) : bool :=
  JsString.includes (JsString.toLowerCase (title todo)) query ||
  (negb (JsString.isEmpty (description todo)) &&
   JsString.includes (JsString.toLowerCase (description todo)) query).

(** Lines 34-49 of [getTodos]: the status filter, then the search filter.
    [deref] reads the record behind an element: the store filters an array
    of references; on a list of records [deref] is the identity. *)
Definition applyFilters {A : Type} (deref : A → Todo) (status q : string)
  (results : list A) : list A :=
  let results :=
    if negb (String.eqb status "all")
    then filter (λ x, statusCallback status (deref x)) results
    else results in
  let results :=
    if negb (JsString.isEmpty q)
    then let query := JsString.toLowerCase q in
         filter (λ x, searchCallback query (deref x)) results
    else results in
  results.

Definition filterResults (st : Store) (status q : string) : list objref :=
  applyFilters (getObj st) status q (getArr st (todos st)).

(** The filter recomputed on the records of the collection. *)
Definition recompute (st : Store) (status q : string) : list Todo :=
  applyFilters (λ todo, todo) status q (records st).

(** Lines 55-58 of [getTodos]: at the size limit, the first key of the
    Map's iteration order is deleted. *)
Definition evictIfFull (cache : list (string * arrref)) : list (string * arrref) :=
  if CACHE_SIZE_LIMIT <=? JsMap.size cache
  then match JsMap.firstKey cache with
       | Some firstKey => JsMap.delete firstKey cache
       | None => cache
       end
  else cache.

(** [getTodos({ status, q })].  On a hit the cached array itself is
    returned; on a miss the filtered references are copied into a new
    array, which is stored in the cache and returned. *)
Definition getTodos (status q : string) (st : Store) : arrref * Store :=
  let cacheKey := getCacheKey status q in
  match JsMap.get cacheKey (queryCache st) with
  | Some cached => (cached, st)
  | None =>
      let results := filterResults st status q in
      let finalResults := length (arrs st) in
      (finalResults,
       {| objs := objs st; arrs := arrs st ++ [results]; todos := todos st;
          idCounter := idCounter st;
          queryCache :=
            JsMap.set cacheKey finalResults (evictIfFull (queryCache st)) |})
  end.

(** [getTodos()] with the defaults [status = "all"], [q = ""]. *)
Definition getTodosDefault : Store → arrref * Store := getTodos "all" "".

(** [description || ""] *)
Definition orEmpty (s : string) : string :=
  if JsString.isEmpty s then "" else s.

(** [createTodo({ title, description })]; [now] is the clock reading
    [new Date().toISOString()]. *)
Definition createTodo (title0 description0 now : string) (st : Store)
  : outcome objref * Store :=
  let trimmedTitle := JsString.trim title0 in
  if JsString.isEmpty trimmedTitle then (Throw "Title is required", st)
  else
    let newTodo :=
      {| id := idCounter st; title := trimmedTitle;
         description := orEmpty description0; completed := false;
         createdAt := now |} in
    let l := length (objs st) in
    (Return l,
     clearCache
       {| objs := objs st ++ [newTodo];
          arrs := <[todos st := getArr st (todos st) ++ [l]]> (arrs st);
          todos := todos st;
          idCounter := (idCounter st + 1)%N;
          queryCache := queryCache st |}).

(** The [updates] object of [updateTodo]: each of [title], [description]
    and [completed] is supplied or absent. *)
Record Updates := mkUpdates {
  u_title : option string;
  u_description : option string;
  u_completed : option bool
}.

(** [{ ...todo, ...updates }] *)
Definition spread (todo : Todo) (updates : Updates) : Todo :=
  {| id := id todo;
     title := default (title todo) (u_title updates);
     description := default (description todo) (u_description updates);
     completed := default (completed todo) (u_completed updates);
     createdAt := createdAt todo |}.

Definition withTitle (todo : Todo) (t : string) : Todo :=
  {| id := id todo; title := t; description := description todo;
     completed := completed todo; createdAt := createdAt todo |}.

(** [arr.findIndex(t => t.id === id0)]; [None] for -1. *)
Fixpoint findIndexFrom (st : Store) (id0 : N) (i : nat) (arr : list objref)
  : option nat :=
  match arr with
  | [] => None
  | l :: arr' =>
      if (id (getObj st l) =? id0)%N then Some i
      else findIndexFrom st id0 (S i) arr'
  end.

Definition findIndex (st : Store) (id0 : N) : option nat :=
  findIndexFrom st id0 0 (getArr st (todos st)).

(** [todos[todoIndex] = updatedTodo; clearCache(); return updatedTodo] *)
Definition storeUpdated (todoIndex : nat) (updatedTodo : Todo) (st : Store)
  : outcome (option objref) * Store :=
  let l := length (objs st) in
  (Return (Some l),
   clearCache
     {| objs := objs st ++ [updatedTodo];
        arrs := <[todos st := <[todoIndex := l]> (getArr st (todos st))]> (arrs st);
        todos := todos st;
        idCounter := idCounter st;
        queryCache := queryCache st |}).

(** [updateTodo(id, updates)].  [updatedTodo] is a local object until it is
    written into the array; a throw leaves it unreachable, so the model
    allocates it at the write. *)
Definition updateTodo (id0 : N) (updates : Updates) (st : Store)
  : outcome (option objref) * Store :=
  match findIndex st id0 with
  | None => (Return None, st)
  | Some todoIndex =>
      let todo := getObj st (getArr st (todos st) !!! todoIndex) in
      let updatedTodo := spread todo updates in
      match u_title updates with
      | Some t =>
          let trimmedTitle := JsString.trim t in
          if JsString.isEmpty trimmedTitle then (Throw "Title is required", st)
          else storeUpdated todoIndex (withTitle updatedTodo trimmedTitle) st
      | None => storeUpdated todoIndex updatedTodo st
      end
  end.

(** [todo.completed = !todo.completed], in place. *)
Definition flipCompleted (todo : Todo) : Todo :=
  {| id := id todo; title := title todo; description := description todo;
     completed := negb (completed todo); createdAt := createdAt todo |}.

Definition flipAt (l : objref) (os : list Todo) : list Todo :=
  <[l := flipCompleted (os !!! l)]> os.

(** [toggleTodo(id)] *)
Definition toggleTodo (id0 : N) (st : Store) : outcome (option objref) * Store :=
  match findIndex st id0 with
  | None => (Return None, st)
  | Some i =>
      let l := getArr st (todos st) !!! i in
      (Return (Some l),
       clearCache
         {| objs := flipAt l (objs st); arrs := arrs st; todos := todos st;
            idCounter := idCounter st; queryCache := queryCache st |})
  end.

(** [deleteTodo(id)]: [todos.splice(idx, 1)] removes the element in place. *)
Definition deleteTodo (id0 : N) (st : Store) : outcome (option objref) * Store :=
  match findIndex st id0 with
  | None => (Return None, st)
  | Some idx =>
      let arr := getArr st (todos st) in
      let deletedTodo := arr !!! idx in
      (Return (Some deletedTodo),
       clearCache
         {| objs := objs st;
            arrs := <[todos st := base.delete idx arr]> (arrs st);
            todos := todos st;
            idCounter := idCounter st; queryCache := queryCache st |})
  end.

(** The [forEach] of [bulkToggleTodos]: the object heap and [updatedTodos]
    after visiting the references of [arr] in order. *)
Fixpoint bulkToggleLoop (idSet : gset N) (arr : list objref)
  (os : list Todo) (updatedTodos : list objref) : list Todo * list objref :=
  match arr with
  | [] => (os, updatedTodos)
  | l :: arr' =>
      if decide (id (os !!! l) ∈ idSet)
      then bulkToggleLoop idSet arr' (flipAt l os) (updatedTodos ++ [l])
      else bulkToggleLoop idSet arr' os updatedTodos
  end.

(** [bulkToggleTodos(ids)] *)
Definition bulkToggleTodos (ids : list N) (st : Store)
  : outcome (list objref) * Store :=
  let idSet : gset N := list_to_set ids in
  let '(os, updatedTodos) :=
    bulkToggleLoop idSet (getArr st (todos st)) (objs st) [] in
  let st' :=
    {| objs := os; arrs := arrs st; todos := todos st;
       idCounter := idCounter st; queryCache := queryCache st |} in
  (Return updatedTodos,
   if 0 <? length updatedTodos then clearCache st' else st').

(** [bulkDeleteTodos(ids)]: [todos] is re-bound to the filtered array; the
    callback keeps the records whose id is not in [idSet] and pushes the
    others to [deletedTodos]. *)
Definition bulkDeleteTodos (ids : list N) (st : Store)
  : outcome (list objref) * Store :=
  let idSet : gset N := list_to_set ids in
  let arr := getArr st (todos st) in
  let deletedTodos := filter (λ l, id (getObj st l) ∈ idSet) arr in
  let st' :=
    {| objs := objs st;
       arrs := arrs st ++ [filter (λ l, id (getObj st l) ∉ idSet) arr];
       todos := length (arrs st);
       idCounter := idCounter st; queryCache := queryCache st |} in
  (Return deletedTodos,
   if 0 <? length deletedTodos then clearCache st' else st').

(** [getTodoStats()] *)
Record Stats := mkStats { total : nat; active : nat; completedCount : nat }.

Definition getTodoStats (st : Store) : Stats :=
  fold_left
    (λ stats todo,
       if completed todo
       then mkStats (total stats) (active stats) (S (completedCount stats))
       else mkStats (total stats) (S (active stats)) (completedCount stats))
    (records st)
    (mkStats (length (getArr st (todos st))) 0 0).

(** [clearAllTodos()] *)
Definition clearAllTodos (st : Store) : outcome nat * Store :=
  let count := length (getArr st (todos st)) in
  (Return count,
   clearCache
     {| objs := objs st; arrs := arrs st ++ [[]]; todos := length (arrs st);
        idCounter := 1%N; queryCache := queryCache st |}).

(** A caller writing into an array it was handed ([arr.push], [arr.pop],
    [arr.length = 0], ...): the array's contents become [contents]. *)
Definition callerWrites (a : arrref) (contents : list objref) (st : Store)
  : Store :=
  {| objs := objs st; arrs := <[a := contents]> (arrs st); todos := todos st;
     idCounter := idCounter st; queryCache := queryCache st |}.

(** ** Runs of the store

    The calls a client can make, and the states they lead to from the
    initial one. *)
Inductive op :=
  | OpGetTodos (status q : string)
  | OpCreate (title0 description0 now : string)
  | OpUpdate (id0 : N) (updates : Updates)
  | OpToggle (id0 : N)
  | OpDelete (id0 : N)
  | OpBulkToggle (ids : list N)
  | OpBulkDelete (ids : list N)
  | OpStats
  | OpClearAll.

(** The state after one call (also when the call throws). *)
Definition step (st : Store) (o : op) : Store :=
  match o with
  | OpGetTodos status q => (getTodos status q st).2
  | OpCreate t d now => (createTodo t d now st).2
  | OpUpdate i u => (updateTodo i u st).2
  | OpToggle i => (toggleTodo i st).2
  | OpDelete i => (deleteTodo i st).2
  | OpBulkToggle ids => (bulkToggleTodos ids st).2
  | OpBulkDelete ids => (bulkDeleteTodos ids st).2
  | OpStats => st
  | OpClearAll => (clearAllTodos st).2
  end.

Definition run (st : Store) (ops : list op) : Store := foldl step st ops.

Inductive reachable : Store → Prop :=
  | reachable_init : reachable init
  | reachable_step st o : reachable st → reachable (step st o).

(** The identifiers returned by the successful [createTodo] calls of a
    run, in order. *)
Fixpoint createdIds (st : Store) (ops : list op) : list N :=
  match ops with
  | [] => []
  | o :: ops' =>
      match o with
      | OpCreate t d now =>
          match (createTodo t d now st).1 with
          | Return l => [id (getObj (step st o) l)]
          | Throw _ => []
          end
      | _ => []
      end ++ createdIds (step st o) ops'
  end.

Definition isClearAll (o : op) : bool :=
  match o with OpClearAll => true | _ => false end.

(** A run of queries only, one per filter [(status, q)]. *)
Definition runQueries (st : Store) (filters : list (string * string)) : Store :=
  foldl (λ s f, (getTodos f.1 f.2 s).2) st filters.

(** The last [n] elements of a list. *)
Definition lastn {A : Type} (n : nat) (l : list A) : list A :=
  drop (length l - n) l.

(** ** What the specification says a query keeps

    "if not all, keep only records whose completed equals
    status == completed", then "match if either title or description
    contains the lowercased query substring". *)
Definition specStatusKeeps (status : string) (todo : Todo) : Prop :=
  status = "all" ∨ completed todo = bool_decide (status = "completed").

Definition specTextKeeps (q : string) (todo : Todo) : Prop :=
  q = "" ∨
  JsString.contains (JsString.toLowerCase (title todo)) (JsString.toLowerCase q) ∨
  JsString.contains (JsString.toLowerCase (description todo)) (JsString.toLowerCase q).

(** A string of white space only (or empty). *)
Fixpoint allWhiteSpace (s : string) : bool :=
  match s with
  | EmptyString => true
  | String c s' => JsString.isWhiteSpace c && allWhiteSpace s'
  end.

(** The record [updateTodo] writes for [todo] and [updates], by field. *)
Definition specUpdated (todo : Todo) (updates : Updates) : Todo :=
  {| id := id todo;
     title := match u_title updates with
              | Some t => JsString.trim t
              | None => title todo
              end;
     description := match u_description updates with
                    | Some d => d
                    | None => description todo
                    end;
     completed := match u_completed updates with
                  | Some c => c
                  | None => completed todo
                  end;
     createdAt := createdAt todo |}.

(** The supplied title trims to the empty string. *)
Definition titleBlank (updates : Updates) : bool :=
  match u_title updates with
  | Some t => JsString.isEmpty (JsString.trim t)
  | None => false
  end.

(** What [bulkToggleTodos] does to one record. *)
Definition toggleIfIn (ids : list N) (todo : Todo) : Todo :=
  if decide (id todo ∈ ids) then flipCompleted todo else todo.

(** How one call may change the array heap and [todos]: not at all, by a
    write into the [todos] array, or by a new array, which [todos] may be
    re-bound to. *)
Definition heapStep (st st' : Store) : Prop :=
  (arrs st' = arrs st ∧ todos st' = todos st) ∨
  (∃ x, arrs st' = <[todos st := x]> (arrs st) ∧ todos st' = todos st) ∨
  (∃ x, arrs st' = arrs st ++ [x] ∧
        (todos st' = todos st ∨ todos st' = length (arrs st))).

(** The cache key of a filter [(status, q)]. *)
Definition keyOf (f : string * string) : string := getCacheKey f.1 f.2.

(** ** Invariants of the reachable states *)

(** A cache entry holds an array other than [todos] whose contents are the
    filter of the current collection for the entry's key. *)
Definition entryOk (st : Store) (e : string * arrref) : Prop :=
  e.2 < length (arrs st) ∧ e.2 ≠ todos st ∧
  ∃ status q, e.1 = getCacheKey status q ∧
              getArr st e.2 = filterResults st status q.

Record wf (st : Store) : Prop := mkWf {
  wf_todos : todos st < length (arrs st);
  wf_refs : Forall (λ l, l < length (objs st)) (getArr st (todos st));
  wf_nodup : NoDup (getArr st (todos st));
  wf_cache : Forall (entryOk st) (queryCache st);
  wf_keys : NoDup (JsMap.keys (queryCache st));
  wf_size : JsMap.size (queryCache st) ≤ CACHE_SIZE_LIMIT
}.

(** ** The route handlers

    app/api/todos/route.js and app/api/todos/[id]/route.js, read as
    functions from a request and the store to a response and the store.
    A response is its HTTP status and its JSON body; a record in a body is
    the record as serialised when the response is built. *)

(** A parsed JSON value (numbers: the integers), or [undefined] as the
    value of a property an object does not have. *)
#[warnings="-register-all"]
Inductive jsval :=
  | JUndefined
  | JNull
  | JBool (b : bool)
  | JNum (n : Z)
  | JStr (s : string)
  | JArr (items : list jsval)
  | JObj (fields : list (string * jsval)).

Module Js.

(** [!!v] *)
Definition truthy (v : jsval) : bool :=
  match v with
  | JUndefined | JNull => false
  | JBool b => b
  | JNum n => negb (n =? 0)%Z
  | JStr s => negb (JsString.isEmpty s)
  | JArr _ | JObj _ => true
  end.

(** [typeof v === "object"] *)
Definition isObjectType (v : jsval) : bool :=
  match v with JNull | JArr _ | JObj _ => true | _ => false end.

(** The own property [key] of an object given by its fields, which have
    pairwise distinct keys. *)
Fixpoint lookupField (key : string) (fields : list (string * jsval)) : jsval :=
  match fields with
  | [] => JUndefined
  | (k, v) :: fields' => if String.eqb k key then v else lookupField key fields'
  end.

(** [v.key] for a key that is no built-in property: [undefined] on
    primitives and arrays, a TypeError (with V8's message) on null. *)
Definition prop (v : jsval) (key : string) : outcome jsval :=
  match v with
  | JUndefined =>
      Throw ("Cannot read properties of undefined (reading '" +:+ key +:+ "')")
  | JNull => Throw ("Cannot read properties of null (reading '" +:+ key +:+ "')")
  | JObj fields => Return (lookupField key fields)
  | _ => Return JUndefined
  end.

(** [Object.entries(v)] for an array or an object. *)
Definition entries (v : jsval) : list (string * jsval) :=
  match v with
  | JObj fields => fields
  | JArr items => imap (λ i x, (pretty i, x)) items
  | _ => []
  end.

(** [Object.keys(v).length] *)
Definition keysLength (v : jsval) : nat :=
  match v with
  | JObj fields => length fields
  | JArr items => length items
  | JStr s => String.length s
  | _ => 0
  end.

(** ['toggle' in v]: a TypeError on a primitive. *)
Definition hasToggle (v : jsval) : outcome bool :=
  match v with
  | JObj fields => Return (bool_decide ("toggle" ∈ fields.*1))
  | JArr _ => Return false
  | _ => Throw "Cannot use 'in' operator to search for 'toggle'"
  end.

(** [s.substring(0, n)] *)
Fixpoint substring0 (n : nat) (s : string) : string :=
  match n, s with
  | S n', String c s' => String c (substring0 n' s')
  | _, _ => EmptyString
  end.

End Js.

Definition MAX_QUERY_LENGTH : nat := 100.
Definition MAX_TITLE_LENGTH : nat := 200.
Definition MAX_DESCRIPTION_LENGTH : nat := 1000.

(** A response: the HTTP status and the body. *)
Record Response (B : Type) := mkResponse { status : nat; body : B }.
Arguments mkResponse {B} status body.
Arguments status {B} r.
Arguments body {B} r.

(** *** app/api/todos/route.js *)
Module TodosRoute.

(** The three query parameters as [searchParams.get] returns them
    ([None] for null). *)
Record QueryParams := mkQueryParams {
  p_status : option string;
  p_q : option string;
  p_includeStats : option string
}.

(** [searchParams.get(name) || fallback] *)
Definition getOr (v : option string) (fallback : string) : string :=
  match v with
  | Some s => if JsString.isEmpty s then fallback else s
  | None => fallback
  end.

(** [VALID_STATUSES.has(status)] *)
Definition validStatus (s : string) : bool :=
  String.eqb s "all" || String.eqb s "active" || String.eqb s "completed".

(** [validateQueryParams] *)
Definition validateQueryParams (ps : QueryParams)
  : outcome (string * string * bool) :=
  let status := getOr (p_status ps) "all" in
  let q := getOr (p_q ps) "" in
  let includeStats :=
    match p_includeStats ps with
    | Some s => String.eqb s "true"
    | None => false
    end in
  if negb (validStatus status)
  then Throw "Invalid status. Must be one of: all, active, completed"
  else
    let sanitizedQuery :=
      if MAX_QUERY_LENGTH <? String.length q
      then Js.substring0 MAX_QUERY_LENGTH q else q in
    Return (status, sanitizedQuery, includeStats).

(** [validateTodoData]; the two [trim] calls at the end throw a TypeError
    (V8's message) on a description that is not a string. *)
Definition validateTodoData (b : jsval) : outcome (string * string) :=
  if negb (Js.truthy b) || negb (Js.isObjectType b)
  then Throw "Request body must be a valid JSON object"
  else
    let fields := match b with JObj fields => fields | _ => [] end in
    let title0 := Js.lookupField "title" fields in
    let description0 :=
      match Js.lookupField "description" fields with
      | JUndefined => JStr ""
      | v => v
      end in
    match title0 with
    | JStr t =>
        if MAX_TITLE_LENGTH <? String.length t
        then Throw "Title must be 200 characters or less"
        else
          match description0 with
          | JStr d =>
              if negb (JsString.isEmpty d) && (MAX_DESCRIPTION_LENGTH <? String.length d)
              then Throw "Description must be 1000 characters or less"
              else Return (JsString.trim t, JsString.trim d)
          | v =>
              if Js.truthy v then Throw "Description must be a string"
              else match v with
                   | JNull => Throw "Cannot read properties of null (reading 'trim')"
                   | _ => Throw "description.trim is not a function"
                   end
          end
    | _ => Throw "Title must be a string"
    end.

Inductive Body :=
  | ErrorBody (error timestamp : string)
  | ListBody (todos : list Todo) (count : nat) (query status timestamp : string)
             (stats : option Stats)
  | CreatedBody (todo : Todo) (timestamp : string).

(** [createErrorResponse(message, status)] *)
Definition createErrorResponse (message : string) (status : nat) (now : string)
  : Response Body :=
  mkResponse status (ErrorBody message now).

(** [GET]: [now] is the clock reading of the response. *)
Definition GET (ps : QueryParams) (now : string) (st : Store)
  : Response Body * Store :=
  match validateQueryParams ps with
  | Throw msg => (createErrorResponse msg 400 now, st)
  | Return (status, q, includeStats) =>
      let '(todos, st') := getTodos status q st in
      let shown := view st' todos in
      (mkResponse 200
         (ListBody shown (length shown) q status now
            (if includeStats then Some (getTodoStats st') else None)),
       st')
  end.

(** The status [POST] gives an error by its message. *)
Definition errorStatus (message : string) : nat :=
  if JsString.includes message "required" || JsString.includes message "must be"
  then 400 else 500.

(** [POST]: [parsed] is the result of [req.json()] ([None] when it
    rejects); [createdAt] and [now] are the two clock readings. *)
Definition POST (parsed : option jsval) (createdAt now : string) (st : Store)
  : Response Body * Store :=
  match parsed with
  | None => (createErrorResponse "Invalid JSON in request body" 400 now, st)
  | Some b =>
      match validateTodoData b with
      | Throw msg => (createErrorResponse msg (errorStatus msg) now, st)
      | Return (t, d) =>
          match createTodo t d createdAt st with
          | (Throw msg, st') => (createErrorResponse msg (errorStatus msg) now, st')
          | (Return l, st') => (mkResponse 201 (CreatedBody (getObj st' l) now), st')
          end
      end
  end.

End TodosRoute.

(** *** app/api/todos/[id]/route.js *)
Module TodoRoute.

Definition MAX_ID_VALUE : Z := 9007199254740991.

(** [params.id] by what the handler sees of it: a falsy value (the empty
    string), or what [Number(id)] makes of a non-empty one: NaN, an
    infinity, an integer, or a number that is not an integer.  The last is
    given by the integer just below it and by its text in a template
    string. *)
Inductive IdParam :=
  | IdEmpty
  | IdNaN
  | IdInfinity (negative : bool)
  | IdInt (z : Z)
  | IdFrac (below : Z) (shown : string).

(** The numbers [validateTodoId] returns: it has no test for integers. *)
Inductive TodoId :=
  | WholeId (n : N)
  | FracId (shown : string).

(** [validateTodoId].  A number strictly between [below] and [below + 1]
    is [<= 0] when [below < 0] and [> MAX_ID_VALUE] when
    [MAX_ID_VALUE <= below]. *)
Definition validateTodoId (p : IdParam) : outcome TodoId :=
  match p with
  | IdEmpty => Throw "Todo ID is required"
  | IdNaN => Throw "Invalid todo ID format"
  | IdInfinity _ => Throw "Invalid todo ID format"
  | IdInt z =>
      if (z <=? 0)%Z || (MAX_ID_VALUE <? z)%Z
      then Throw "Invalid todo ID format"
      else Return (WholeId (Z.to_N z))
  | IdFrac below shown =>
      if (below <? 0)%Z || (MAX_ID_VALUE <=? below)%Z
      then Throw "Invalid todo ID format"
      else Return (FracId shown)
  end.

(** The text of a validated id in a template string. *)
Definition idText (x : TodoId) : string :=
  match x with
  | WholeId n => pretty n
  | FracId shown => shown
  end.

(** [t.id === id] for the id [n] of a record, which is an integer. *)
Definition sameId (x : TodoId) (n : N) : bool :=
  match x with
  | WholeId m => (n =? m)%N
  | FracId _ => false
  end.

(** A call of [updateTodo], [toggleTodo] or [deleteTodo] with a validated
    id.  Each begins by searching the record with [t.id === Number(id)]
    and returns null when there is none, before any write (lib/store.js,
    lines 91-92, 116-117, 129-130); for a number that is not an integer
    the comparison is false on every record. *)
Definition withId {A : Type} (f : N → Store → outcome (option A) * Store)
  (x : TodoId) (st : Store) : outcome (option A) * Store :=
  match x with
  | WholeId n => f n st
  | FracId _ => (Return None, st)
  end.

Definition allowedField (key : string) : bool :=
  String.eqb key "title" || String.eqb key "description" || String.eqb key "completed".

(** The body of the loop of [validateUpdateData] for one entry. *)
Definition validateField (key : string) (value : jsval) (updates : Updates)
  : outcome Updates :=
  if negb (allowedField key)
  then Throw ("Field '" +:+ key +:+ "' is not allowed for updates")
  else if String.eqb key "title" then
    match value with
    | JStr t =>
        if MAX_TITLE_LENGTH <? String.length t
        then Throw "Title must be 200 characters or less"
        else Return (mkUpdates (Some (JsString.trim t)) (u_description updates)
                               (u_completed updates))
    | _ => Throw "Title must be a string"
    end
  else if String.eqb key "description" then
    match value with
    | JNull => Return (mkUpdates (u_title updates) (Some "") (u_completed updates))
    | JStr d =>
        if negb (JsString.isEmpty d) && (MAX_DESCRIPTION_LENGTH <? String.length d)
        then Throw "Description must be 1000 characters or less"
        else Return (mkUpdates (u_title updates)
                               (Some (if JsString.isEmpty d then "" else JsString.trim d))
                               (u_completed updates))
    | _ => Throw "Description must be a string or null"
    end
  else
    match value with
    | JBool c => Return (mkUpdates (u_title updates) (u_description updates) (Some c))
    | _ => Throw "Completed status must be a boolean"
    end.

Fixpoint validateFields (es : list (string * jsval)) (updates : Updates)
  : outcome Updates :=
  match es with
  | [] => Return updates
  | (key, value) :: es' =>
      match validateField key value updates with
      | Throw msg => Throw msg
      | Return updates' => validateFields es' updates'
      end
  end.

(** [Object.keys(updates).length === 0] *)
Definition noFields (updates : Updates) : bool :=
  match u_title updates, u_description updates, u_completed updates with
  | None, None, None => true
  | _, _, _ => false
  end.

(** [validateUpdateData] *)
Definition validateUpdateData (b : jsval) : outcome Updates :=
  if negb (Js.truthy b) || negb (Js.isObjectType b)
  then Throw "Request body must be a valid JSON object"
  else
    match validateFields (Js.entries b) (mkUpdates None None None) with
    | Throw msg => Throw msg
    | Return updates =>
        if noFields updates then Throw "No valid fields provided for update"
        else Return updates
    end.

Inductive Body :=
  | ErrorBody (error timestamp : string)
  | TodoBody (todo : Todo) (message : option string) (timestamp : string)
             (action : option string).

(** [createErrorResponse(message, status)] *)
Definition createErrorResponse (message : string) (status : nat) (now : string)
  : Response Body :=
  mkResponse status (ErrorBody message now).

(** [handleNotFound(id)] *)
Definition handleNotFound (id0 : TodoId) (now : string) : Response Body :=
  createErrorResponse ("Todo with ID " +:+ idText id0 +:+ " not found") 404 now.

(** [arr.find(t => t.id === id0)] *)
Definition findById (id0 : TodoId) (rs : list Todo) : option Todo :=
  head (filter (λ todo, sameId id0 (id todo) = true) rs).

(** [GET] *)
Definition GET (p : IdParam) (now : string) (st : Store) : Response Body * Store :=
  match validateTodoId p with
  | Throw msg => (createErrorResponse msg 400 now, st)
  | Return id0 =>
      let '(allTodos, st') := getTodosDefault st in
      match findById id0 (view st' allTodos) with
      | None => (handleNotFound id0 now, st')
      | Some todo => (mkResponse 200 (TodoBody todo None now None), st')
      end
  end.

(** The toggle of [PATCH], with its two responses. *)
Definition toggleResponse (id0 : TodoId) (now : string) (st : Store)
  : Response Body * Store :=
  match withId toggleTodo id0 st with
  | (Return (Some l), st') =>
      (mkResponse 200 (TodoBody (getObj st' l) None now (Some "toggled")), st')
  | (_, st') => (handleNotFound id0 now, st')
  end.

(** The inner [try] of [PATCH]: [None] when the request was answered as a
    toggle (also from the [catch]), else the validated updates. *)
Definition patchUpdates (parsed : option jsval) : option Updates :=
  match parsed with
  | None => None
  | Some b =>
      if negb (Js.truthy b) then None
      else
        let isToggle :=
          if Js.keysLength b =? 1 then Js.hasToggle b else Return false in
        match isToggle with
        | Throw _ => None
        | Return true => None
        | Return false =>
            match validateUpdateData b with
            | Throw _ => None
            | Return updates => Some updates
            end
        end
  end.

(** The update of [PATCH] and [PUT], with its responses. *)
Definition updateResponse (id0 : TodoId) (updates : Updates)
  (action now : string) (st : Store) : Response Body * Store :=
  match withId (λ n, updateTodo n updates) id0 st with
  | (Throw msg, st') => (createErrorResponse msg 400 now, st')
  | (Return None, st') => (handleNotFound id0 now, st')
  | (Return (Some l), st') =>
      (mkResponse 200 (TodoBody (getObj st' l) None now (Some action)), st')
  end.

(** [PATCH] *)
Definition PATCH (p : IdParam) (parsed : option jsval) (now : string) (st : Store)
  : Response Body * Store :=
  match validateTodoId p with
  | Throw msg => (createErrorResponse msg 400 now, st)
  | Return id0 =>
      match patchUpdates parsed with
      | None => toggleResponse id0 now st
      | Some updates => updateResponse id0 updates "updated" now st
      end
  end.

(** [DELETE] *)
Definition DELETE (p : IdParam) (now : string) (st : Store)
  : Response Body * Store :=
  match validateTodoId p with
  | Throw msg => (createErrorResponse msg 400 now, st)
  | Return id0 =>
      match withId deleteTodo id0 st with
      | (Return (Some l), st') =>
          (mkResponse 200
             (TodoBody (getObj st' l)
                (Some ("Todo with ID " +:+ idText id0 +:+ " has been deleted"))
                now (Some "deleted")),
           st')
      | (_, st') => (handleNotFound id0 now, st')
      end
  end.

(** [a || b] on values *)
Definition orElse (a b : jsval) : jsval := if Js.truthy a then a else b.

(** [PUT] *)
Definition PUT (p : IdParam) (parsed : option jsval) (now : string) (st : Store)
  : Response Body * Store :=
  match validateTodoId p with
  | Throw msg => (createErrorResponse msg 400 now, st)
  | Return id0 =>
      match parsed with
      | None => (createErrorResponse "Invalid JSON in request body" 400 now, st)
      | Some b =>
          match Js.prop b "title" with
          | Throw msg => (createErrorResponse msg 400 now, st)
          | Return title0 =>
              if negb (Js.truthy title0)
              then (createErrorResponse "Title is required for complete replacement"
                      400 now, st)
              else
                let description0 :=
                  match Js.prop b "description" with
                  | Return v => v | Throw _ => JUndefined end in
                let completed0 :=
                  match Js.prop b "completed" with
                  | Return v => v | Throw _ => JUndefined end in
                match validateUpdateData
                        (JObj [("title", title0);
                               ("description", orElse description0 (JStr ""));
                               ("completed", JBool (Js.truthy completed0))]) with
                | Throw msg => (createErrorResponse msg 400 now, st)
                | Return updates => updateResponse id0 updates "replaced" now st
                end
          end
      end
  end.

End TodoRoute.

(** A set field is trimmed, within its length limit, and comes from an
    entry of the body (or was set before). *)
Definition fieldsFrom (es : list (string * jsval)) (acc u : Updates) : Prop :=
  (∀ t, u_title u = Some t →
        u_title acc = Some t ∨
        JsString.trim t = t ∧ String.length t ≤ 200 ∧
        ∃ t0, ("title", JStr t0) ∈ es ∧ t = JsString.trim t0) ∧
  (∀ d, u_description u = Some d →
        u_description acc = Some d ∨
        JsString.trim d = d ∧ String.length d ≤ 1000 ∧
        ∃ v, ("description", v) ∈ es ∧
             (v = JNull ∧ d = "" ∨ ∃ d0, v = JStr d0 ∧ d = JsString.trim d0)) ∧
  (∀ c, u_completed u = Some c →
        u_completed acc = Some c ∨ ("completed", JBool c) ∈ es).
(** *** components/CreateTodoForm.js *)
Module CreateTodoForm.

Definition MIN_TITLE_LENGTH : nat := 1.

(** The [errors] object of [validateForm]. *)
Record FormErrors := mkFormErrors {
  e_title : option string;
  e_description : option string
}.

(** [validateForm] on the form data [{ title, description }]. *)
Definition validateForm (title0 description0 : string) : FormErrors :=
  let trimmedTitle := JsString.trim title0 in
  {| e_title :=
       if JsString.isEmpty trimmedTitle then Some "Title is required"
       else if String.length trimmedTitle <? MIN_TITLE_LENGTH
       then Some "Title must be at least 1 character"
       else if MAX_TITLE_LENGTH <? String.length trimmedTitle
       then Some "Title must be 200 characters or less"
       else None;
     e_description :=
       if MAX_DESCRIPTION_LENGTH <? String.length description0
       then Some "Description must be 1000 characters or less"
       else None |}.

(** [Object.keys(errors).length > 0] *)
Definition hasErrors (errors : FormErrors) : bool :=
  match e_title errors, e_description errors with
  | None, None => false
  | _, _ => true
  end.

(** The [requestBody] of [handleSubmit], as the server parses it. *)
Definition requestBody (title0 description0 : string) : jsval :=
  JObj [("title", JStr (JsString.trim title0));
        ("description", JStr (JsString.trim description0))].

End CreateTodoForm.

(** *** The requests a client can send

    One request to one of the six handlers, with the clock readings it
    uses, and the states the handlers lead to from the initial one. *)
Inductive request :=
  | ReqList (ps : TodosRoute.QueryParams)
  | ReqCreate (parsed : option jsval) (createdAt : string)
  | ReqGet (p : TodoRoute.IdParam)
  | ReqPatch (p : TodoRoute.IdParam) (parsed : option jsval)
  | ReqDelete (p : TodoRoute.IdParam)
  | ReqPut (p : TodoRoute.IdParam) (parsed : option jsval).

Definition serve (st : Store) (rq : request) (now : string) : Store :=
  match rq with
  | ReqList ps => (TodosRoute.GET ps now st).2
  | ReqCreate parsed createdAt => (TodosRoute.POST parsed createdAt now st).2
  | ReqGet p => (TodoRoute.GET p now st).2
  | ReqPatch p parsed => (TodoRoute.PATCH p parsed now st).2
  | ReqDelete p => (TodoRoute.DELETE p now st).2
  | ReqPut p parsed => (TodoRoute.PUT p parsed now st).2
  end.

Inductive served : Store → Prop :=
  | served_init : served init
  | served_step st rq now : served st → served (serve st rq now).

(** The length limits and the trimming the handlers apply. *)
Definition updatesBounded (u : Updates) : Prop :=
  (∀ t, u_title u = Some t → String.length (JsString.trim t) ≤ 200) ∧
  (∀ d, u_description u = Some d →
        String.length d ≤ 1000 ∧ JsString.trim d = d).

Definition opBounded (o : op) : Prop :=
  match o with
  | OpCreate t d _ =>
      String.length (JsString.trim t) ≤ 200 ∧
      String.length d ≤ 1000 ∧ JsString.trim d = d
  | OpUpdate _ u => updatesBounded u
  | _ => True
  end.

Definition recordBounded (todo : Todo) : Prop :=
  String.length (title todo) ≤ 200 ∧
  String.length (description todo) ≤ 1000 ∧
  JsString.trim (description todo) = description todo.

(** ** The collection as a list of records

    What each call does to the records the collection shows and to the
    counter, written on the list of records itself: no heap, no cache. *)

(** [rs.findIndex(t => t.id === id0)] on a list of records. *)
Fixpoint findIdx (id0 : N) (rs : list Todo) : option nat :=
  match rs with
  | [] => None
  | todo :: rs' =>
      if (id todo =? id0)%N then Some 0 else S <$> findIdx id0 rs'
  end.

Definition absStep (s : list Todo * N) (o : op) : list Todo * N :=
  let '(rs, c) := s in
  match o with
  | OpGetTodos _ _ => (rs, c)
  | OpCreate t d now =>
      if JsString.isEmpty (JsString.trim t) then (rs, c)
      else (rs ++ [mkTodo c (JsString.trim t) d false now], (c + 1)%N)
  | OpUpdate id0 updates =>
      match findIdx id0 rs with
      | None => (rs, c)
      | Some i =>
          if titleBlank updates then (rs, c)
          else (<[i := specUpdated (rs !!! i) updates]> rs, c)
      end
  | OpToggle id0 =>
      match findIdx id0 rs with
      | None => (rs, c)
      | Some i => (<[i := flipCompleted (rs !!! i)]> rs, c)
      end
  | OpDelete id0 =>
      match findIdx id0 rs with
      | None => (rs, c)
      | Some i => (base.delete i rs, c)
      end
  | OpBulkToggle ids => (toggleIfIn ids <$> rs, c)
  | OpBulkDelete ids => (filter (λ todo, id todo ∉ ids) rs, c)
  | OpStats => (rs, c)
  | OpClearAll => ([], 1%N)
  end.

Definition absRun (s : list Todo * N) (ops : list op) : list Todo * N :=
  foldl absStep s ops.

(** The collection and the counter of a state. *)
Definition contents (st : Store) : list Todo * N := (records st, idCounter st).

(** A stored title is not empty and has no white space at either end. *)
Definition titleOk (todo : Todo) : Prop :=
  title todo ≠ "" ∧ JsString.trim (title todo) = title todo.

(** The number of records with a given [completed] flag. *)
Definition countCompleted (b : bool) (rs : list Todo) : nat :=
  length (filter (λ todo, completed todo = b) rs).

(** Identifiers are pairwise distinct, positive and below the counter. *)
Definition idsOk (s : list Todo * N) : Prop :=
  NoDup (id <$> s.1) ∧ Forall (λ todo, (1 ≤ id todo < s.2)%N) s.1 ∧ (1 ≤ s.2)%N.

(** ** A sample run

    Two records are created, a query is cached, and the first record is
    toggled. *)
Definition sampleOps : list op :=
  [OpCreate "Buy milk" "" "2024-01-01T00:00:00.000Z";
   OpCreate "  Pay bills " "utilities" "2024-01-02T00:00:00.000Z";
   OpGetTodos "active" "";
   OpToggle 1%N].

Definition sampleStore : Store := run init sampleOps.

(** Fifty-one filters with pairwise distinct texts. *)
Definition sampleFilters : list (string * string) :=
  (λ n, ("all", String (ascii_of_nat n) "")) <$> seq 65 51.

(** * Properties *)

(** ** Strings *)

Section strings.
Import JsString.

Lemma app_assoc_string (a b c : string) : (a +:+ b) +:+ c = a +:+ (b +:+ c).
Proof. induction a as [|x a IH]; [done|]. exact (f_equal (String x) IH). Qed.

Lemma isEmpty_true s : isEmpty s = true ↔ s = "".
Proof. by destruct s. Qed.

Lemma trimStart_allWhiteSpace s : isEmpty (trimStart s) = allWhiteSpace s.
Proof.
  induction s as [|c s IH]; [done|]. simpl.
  destruct (isWhiteSpace c); [exact IH | done].
Qed.

Lemma trimEnd_allWhiteSpace s : isEmpty (trimEnd s) = allWhiteSpace s.
Proof.
  induction s as [|c s IH]; [done|]. simpl. rewrite IH.
  by destruct (isWhiteSpace c), (allWhiteSpace s).
Qed.

Lemma allWhiteSpace_trimStart s : allWhiteSpace (trimStart s) = allWhiteSpace s.
Proof.
  induction s as [|c s IH]; [done|]. simpl.
  destruct (isWhiteSpace c) eqn:E; [exact IH|]. simpl. by rewrite E.
Qed.

(** [trim] yields the empty string exactly on white space. *)
Lemma trim_allWhiteSpace s : isEmpty (trim s) = allWhiteSpace s.
Proof.
  unfold trim. by rewrite trimEnd_allWhiteSpace, allWhiteSpace_trimStart.
Qed.

Lemma length_toLowerCase s : String.length (toLowerCase s) = String.length s.
Proof. induction s; simpl; congruence. Qed.

Lemma isEmpty_toLowerCase s : isEmpty (toLowerCase s) = isEmpty s.
Proof. by destruct s. Qed.

Lemma startsWith_spec s p : startsWith s p = true ↔ ∃ post, s = p +:+ post.
Proof.
  revert s. induction p as [|b p IH]; intros s; simpl.
  - split; [intros _; by exists s | done].
  - destruct s as [|a s].
    + split; [done | intros [post H]; discriminate H].
    + rewrite andb_true_iff, IH. split.
      * intros [Hab [post ->]]. apply Ascii.eqb_eq in Hab as ->. by exists post.
      * intros [post H]. cbn in H. injection H as -> ->.
        split; [apply Ascii.eqb_refl | by exists post].
Qed.

(** [includes] decides the substring relation. *)
Lemma includes_spec s sub : includes s sub = true ↔ contains s sub.
Proof.
  unfold contains. induction s as [|a s IH].
  - simpl. rewrite orb_false_r, startsWith_spec. split.
    + intros [post H]. by exists "", post.
    + intros [pre [post H]]. destruct pre; [by exists post | discriminate H].
  - cbn [includes]. rewrite orb_true_iff, IH, startsWith_spec. split.
    + intros [[post H] | [pre [post H]]].
      * by exists "", post.
      * exists (String a pre), post. cbn. by rewrite H.
    + intros [pre [post H]]. destruct pre as [|x pre].
      * left. by exists post.
      * right. cbn in H. injection H as -> ->. by exists pre, post.
Qed.

Lemma includes_empty_l sub : isEmpty sub = false → includes "" sub = false.
Proof. by destruct sub. Qed.
End strings.

Global Instance contains_dec s sub : Decision (JsString.contains s sub).
Proof.
  destruct (JsString.includes s sub) eqn:E.
  - left. by apply includes_spec.
  - right. rewrite <- includes_spec, E. discriminate.
Defined.

Global Instance specStatusKeeps_dec status todo :
  Decision (specStatusKeeps status todo).
Proof. unfold specStatusKeeps. apply _. Defined.

Global Instance specTextKeeps_dec q todo : Decision (specTextKeeps q todo).
Proof. unfold specTextKeeps. apply _. Defined.

(** ** Cache keys: distinct filters have distinct keys *)

Section json.
Import Json.

Lemma unescape_escapeUnit c r : unescapeUnit (escapeUnit c +:+ r) = Some (c, r).
Proof. destruct c as [[] [] [] [] [] [] [] []]; reflexivity. Qed.

Lemma unescape_dquote r : unescapeUnit (String dquote r) = None.
Proof. reflexivity. Qed.

Lemma escape_cons c s r :
  escape (String c s) +:+ r = escapeUnit c +:+ (escape s +:+ r).
Proof.
  change (escape (String c s)) with (escapeUnit c +:+ escape s).
  apply app_assoc_string.
Qed.

Lemma escape_closed_inj s s' r r' :
  escape s +:+ String dquote r = escape s' +:+ String dquote r' →
  s = s' ∧ r = r'.
Proof.
  revert s'. induction s as [|c s IH]; intros [|c' s'] H.
  - cbn in H. by injection H as ->.
  - rewrite escape_cons in H. apply (f_equal unescapeUnit) in H.
    rewrite unescape_escapeUnit in H. discriminate H.
  - rewrite escape_cons in H. apply (f_equal unescapeUnit) in H.
    rewrite unescape_escapeUnit in H. discriminate H.
  - rewrite !escape_cons in H. apply (f_equal unescapeUnit) in H.
    rewrite !unescape_escapeUnit in H. injection H as -> H.
    destruct (IH _ H) as [-> ->]. done.
Qed.

Lemma quote_closed_inj s s' r r' :
  quote s +:+ r = quote s' +:+ r' → s = s' ∧ r = r'.
Proof.
  unfold quote. intros H. injection H as H.
  rewrite !app_assoc_string in H.
  by apply (escape_closed_inj s s' r r') in H.
Qed.

Lemma stringify_inj status q status' q' :
  stringify status q = stringify status' q' → status = status' ∧ q = q'.
Proof.
  unfold stringify. intros H.
  do 3 apply String.app_inj in H.
  apply quote_closed_inj in H as [-> H].
  do 3 apply String.app_inj in H.
  apply quote_closed_inj in H as [-> _]. done.
Qed.
End json.

Lemma getCacheKey_inj status q status' q' :
  getCacheKey status q = getCacheKey status' q' → status = status' ∧ q = q'.
Proof. apply stringify_inj. Qed.

(** ** The Map operations *)

Section map_lemmas.
Context {V : Type}.
Implicit Types (m : list (string * V)) (k : string) (v : V).

Lemma JsMap_get_elem_of k v m : JsMap.get k m = Some v → (k, v) ∈ m.
Proof.
  induction m as [|[k' v'] m IH]; simpl; [done|].
  destruct (String.eqb k' k) eqn:E.
  - apply String.eqb_eq in E as ->. intros [= ->]. left.
  - intros H. right. by apply IH.
Qed.

Lemma JsMap_get_set k v m : JsMap.get k (JsMap.set k v m) = Some v.
Proof.
  induction m as [|[k' v'] m IH]; simpl.
  - by rewrite String.eqb_refl.
  - destruct (String.eqb k' k) eqn:E; simpl.
    + by rewrite String.eqb_refl.
    + by rewrite E.
Qed.

(** [set] on an absent key appends the entry. *)
Lemma JsMap_set_absent k v m :
  JsMap.get k m = None → JsMap.set k v m = m ++ [(k, v)].
Proof.
  induction m as [|[k' v'] m IH]; simpl; [done|].
  destruct (String.eqb k' k); [done|]. intros H. by rewrite IH.
Qed.

Lemma JsMap_get_None_keys k m : JsMap.get k m = None ↔ k ∉ JsMap.keys m.
Proof.
  unfold JsMap.keys. induction m as [|[k' v'] m IH]; simpl.
  - split; [intros _; apply not_elem_of_nil | done].
  - rewrite not_elem_of_cons. destruct (String.eqb k' k) eqn:E.
    + apply String.eqb_eq in E as ->. split; [done | intros [? _]; done].
    + apply String.eqb_neq in E. rewrite IH. split; [|tauto].
      intros H. split; [congruence | done].
Qed.

(** Deleting the first key drops the first entry. *)
Lemma JsMap_delete_firstKey k m :
  JsMap.firstKey m = Some k → JsMap.delete k m = tail m.
Proof.
  destruct m as [|[k' v'] m]; [done|]. unfold JsMap.firstKey. simpl.
  intros [= ->]. by rewrite String.eqb_refl.
Qed.

Lemma JsMap_get_tail k m : JsMap.get k m = None → JsMap.get k (tail m) = None.
Proof.
  destruct m as [|[k' v'] m]; simpl; [done|]. by destruct (String.eqb k' k).
Qed.

Lemma JsMap_Forall_set (P : string * V → Prop) k v m :
  Forall P m → P (k, v) → Forall P (JsMap.set k v m).
Proof.
  intros Hm Hkv. induction Hm as [|[k' v'] m Hx Hm IH]; simpl.
  - by constructor.
  - destruct (String.eqb k' k); by constructor.
Qed.

Lemma JsMap_size_set k v m : JsMap.size (JsMap.set k v m) ≤ S (JsMap.size m).
Proof.
  unfold JsMap.size. induction m as [|[k' v'] m IH]; simpl; [lia|].
  destruct (String.eqb k' k); simpl; lia.
Qed.
End map_lemmas.

(** ** Filtering commutes with dereferencing *)

Lemma fmap_filter_deref {A : Type} (deref : A → Todo) (P : Todo → Prop)
  (HP : ∀ t, Decision (P t)) (HQ : ∀ x, Decision (P (deref x))) (l : list A) :
  deref <$> @filter _ _ _ (λ x, P (deref x)) HQ l = @filter _ _ _ P HP (deref <$> l).
Proof.
  induction l as [|x l IH]; [done|].
  rewrite fmap_cons, !filter_cons.
  destruct (decide (P (deref x))) as [Hx|Hx], (decide (P (deref x))) as [Hy|Hy];
    try done.
  by rewrite fmap_cons, IH.
Qed.

Lemma fmap_filter_callback {A : Type} (deref : A → Todo) (p : Todo → bool)
  (l : list A) :
  deref <$> filter (λ x, p (deref x)) l = filter (λ todo, p todo) (deref <$> l).
Proof. apply (fmap_filter_deref deref (λ t, Is_true (p t))). Qed.

Lemma applyFilters_fmap {A : Type} (deref : A → Todo) status q (l : list A) :
  deref <$> applyFilters deref status q l
  = applyFilters (λ todo, todo) status q (deref <$> l).
Proof.
  unfold applyFilters.
  destruct (negb (status =? "all")%string), (negb (JsString.isEmpty q)); simpl.
  - by rewrite !fmap_filter_callback.
  - by rewrite fmap_filter_callback.
  - by rewrite fmap_filter_callback.
  - done.
Qed.

Lemma applyFilters_sublist {A : Type} (deref : A → Todo) status q (l : list A) :
  applyFilters deref status q l `sublist_of` l.
Proof.
  unfold applyFilters.
  destruct (negb (status =? "all")%string), (negb (JsString.isEmpty q)); simpl;
    try done; try apply sublist_filter.
  etrans; apply sublist_filter.
Qed.

(** ** Frame lemmas for the heaps *)

Lemma filterResults_frame st st' status q :
  objs st' = objs st → getArr st' (todos st') = getArr st (todos st) →
  filterResults st' status q = filterResults st status q.
Proof.
  unfold filterResults, getObj. intros -> ->. done.
Qed.

Lemma view_filterResults st status q :
  getObj st <$> filterResults st status q = recompute st status q.
Proof. apply applyFilters_fmap. Qed.

Lemma getArr_alloc st' st x a :
  arrs st' = arrs st ++ [x] → a < length (arrs st) → getArr st' a = getArr st a.
Proof.
  unfold getArr. intros -> Ha. by apply lookup_total_app_l.
Qed.

Lemma getArr_alloc_new st' st x :
  arrs st' = arrs st ++ [x] → getArr st' (length (arrs st)) = x.
Proof.
  unfold getArr. intros ->. by apply list_lookup_total_middle.
Qed.

Lemma entryOk_frame st st' e :
  objs st' = objs st →
  (∀ a, a < length (arrs st) → getArr st' a = getArr st a) →
  length (arrs st) ≤ length (arrs st') →
  getArr st' (todos st') = getArr st (todos st) →
  todos st' = todos st ∨ length (arrs st) ≤ todos st' →
  entryOk st e → entryOk st' e.
Proof.
  intros Ho Ha Hlen Harr Ht (Hlt & Hne & status & q & Hk & Hv).
  split; [lia|]. split; [destruct Ht; [congruence | lia]|].
  exists status, q. split; [done|].
  rewrite Ha by done. rewrite Hv. symmetry. by apply filterResults_frame.
Qed.

(** ** The eviction step *)

Lemma evictIfFull_Forall (P : string * arrref → Prop) cache :
  Forall P cache → Forall P (evictIfFull cache).
Proof.
  intros H. unfold evictIfFull.
  destruct (CACHE_SIZE_LIMIT <=? JsMap.size cache); [|done].
  destruct (JsMap.firstKey cache) as [k|] eqn:E; [|done].
  rewrite (JsMap_delete_firstKey _ _ E). destruct H; [done|]. done.
Qed.

Lemma evictIfFull_size cache :
  JsMap.size cache ≤ CACHE_SIZE_LIMIT →
  JsMap.size (evictIfFull cache) < CACHE_SIZE_LIMIT.
Proof.
  unfold evictIfFull, JsMap.size, CACHE_SIZE_LIMIT. intros H.
  destruct (50 <=? length cache) eqn:E.
  - apply Nat.leb_le in E. destruct cache as [|[k v] cache]; simpl in *; [lia|].
    unfold JsMap.firstKey. simpl. rewrite String.eqb_refl. lia.
  - apply Nat.leb_gt in E. lia.
Qed.

Lemma evictIfFull_get k cache :
  JsMap.get k cache = None → JsMap.get k (evictIfFull cache) = None.
Proof.
  intros H. unfold evictIfFull.
  destruct (CACHE_SIZE_LIMIT <=? JsMap.size cache); [|done].
  destruct (JsMap.firstKey cache) as [k'|] eqn:E; [|done].
  rewrite (JsMap_delete_firstKey _ _ E). by apply JsMap_get_tail.
Qed.

(** At the limit the first entry goes; below it nothing does. *)
Lemma evictIfFull_full cache :
  CACHE_SIZE_LIMIT ≤ JsMap.size cache → evictIfFull cache = tail cache.
Proof.
  unfold evictIfFull. intros H. apply Nat.leb_le in H. rewrite H.
  destruct cache as [|[k v] cache]; [done|].
  unfold JsMap.firstKey. simpl. by rewrite String.eqb_refl.
Qed.

Lemma evictIfFull_below cache :
  JsMap.size cache < CACHE_SIZE_LIMIT → evictIfFull cache = cache.
Proof.
  unfold evictIfFull. intros H. apply Nat.leb_gt in H. by rewrite H.
Qed.

Lemma keys_set_absent (k : string) (v : nat) m :
  JsMap.get k m = None → JsMap.keys (JsMap.set k v m) = JsMap.keys m ++ [k].
Proof.
  intros H. rewrite JsMap_set_absent by done. unfold JsMap.keys.
  by rewrite fmap_app.
Qed.

Lemma keys_tail (m : list (string * nat)) : JsMap.keys (tail m) = tail (JsMap.keys m).
Proof. by destruct m. Qed.

Lemma evictIfFull_keys cache :
  NoDup (JsMap.keys cache) → NoDup (JsMap.keys (evictIfFull cache)).
Proof.
  intros H. unfold evictIfFull.
  destruct (CACHE_SIZE_LIMIT <=? JsMap.size cache); [|done].
  destruct (JsMap.firstKey cache) as [k|] eqn:E; [|done].
  rewrite (JsMap_delete_firstKey _ _ E), keys_tail.
  destruct (JsMap.keys cache); [done|]. by apply NoDup_cons in H as [_ H].
Qed.

(** ** [getTodos] keeps the invariant *)

Lemma getTodos_hit status q st a :
  JsMap.get (getCacheKey status q) (queryCache st) = Some a →
  getTodos status q st = (a, st).
Proof. unfold getTodos. by intros ->. Qed.

Lemma getTodos_miss status q st :
  JsMap.get (getCacheKey status q) (queryCache st) = None →
  getTodos status q st =
    (length (arrs st),
     {| objs := objs st; arrs := arrs st ++ [filterResults st status q];
        todos := todos st; idCounter := idCounter st;
        queryCache :=
          JsMap.set (getCacheKey status q) (length (arrs st))
                    (evictIfFull (queryCache st)) |}).
Proof. unfold getTodos. by intros ->. Qed.

Lemma wf_getTodos status q st : wf st → wf (getTodos status q st).2.
Proof.
  intros [Ht Hr Hn Hc Hk Hs].
  destruct (JsMap.get (getCacheKey status q) (queryCache st)) as [a|] eqn:E.
  - by rewrite (getTodos_hit _ _ _ _ E).
  - rewrite (getTodos_miss _ _ _ E). simpl.
    set (st' := {| objs := objs st |}).
    assert (Hframe : ∀ a, a < length (arrs st) → getArr st' a = getArr st a).
    { intros a Ha. by eapply getArr_alloc. }
    split; simpl.
    + rewrite length_app. simpl. lia.
    + fold st'. change (todos st) with (todos st'). rewrite Hframe; done.
    + fold st'. change (todos st) with (todos st'). rewrite Hframe; done.
    + fold st'. apply JsMap_Forall_set.
      * apply evictIfFull_Forall. eapply Forall_impl; [exact Hc|].
        intros e He. eapply (entryOk_frame st st'); try done.
        -- subst st'. simpl. rewrite length_app. lia.
        -- by apply Hframe.
        -- by left.
      * split; simpl; [rewrite length_app; simpl; lia|]. split; [lia|].
        exists status, q. split; [done|].
        rewrite (getArr_alloc_new st' st (filterResults st status q)) by done.
        symmetry. apply filterResults_frame; [done|]. by apply Hframe.
    + rewrite keys_set_absent by by apply evictIfFull_get.
      apply NoDup_app. split; [by apply evictIfFull_keys|].
      split; [|apply NoDup_singleton].
      intros k Hin ->%list_elem_of_singleton.
      by apply (proj1 (JsMap_get_None_keys _ _) (evictIfFull_get _ _ E)).
    + pose proof (evictIfFull_size _ Hs).
      pose proof (JsMap_size_set (getCacheKey status q) (length (arrs st))
                    (evictIfFull (queryCache st))).
      unfold JsMap.size, CACHE_SIZE_LIMIT in *. lia.
Qed.

(** ** [findIndex] *)

Lemma findIndexFrom_Some st id0 k arr i :
  findIndexFrom st id0 k arr = Some i →
  k ≤ i ∧ i - k < length arr ∧ id (getObj st (arr !!! (i - k))) = id0.
Proof.
  revert k. induction arr as [|l arr IH]; intros k; simpl; [done|].
  destruct (id (getObj st l) =? id0)%N eqn:E.
  - intros [= <-]. apply N.eqb_eq in E. rewrite Nat.sub_diag. simpl.
    repeat split; [lia | lia | done].
  - intros H. apply IH in H as (Hk & Hlt & Hid).
    replace (i - k) with (S (i - S k)) by lia. simpl.
    repeat split; [lia | lia | done].
Qed.

Lemma findIndexFrom_None st id0 k arr :
  findIndexFrom st id0 k arr = None ↔
  Forall (λ l, id (getObj st l) ≠ id0) arr.
Proof.
  revert k. induction arr as [|l arr IH]; intros k; simpl.
  - split; [constructor | done].
  - rewrite Forall_cons. destruct (id (getObj st l) =? id0)%N eqn:E.
    + apply N.eqb_eq in E. split; [done | intros [? _]; done].
    + apply N.eqb_neq in E. rewrite IH. tauto.
Qed.

Lemma findIndex_Some st id0 i :
  findIndex st id0 = Some i →
  i < length (getArr st (todos st)) ∧
  id (getObj st (getArr st (todos st) !!! i)) = id0.
Proof.
  unfold findIndex. intros H. apply findIndexFrom_Some in H.
  rewrite Nat.sub_0_r in H. tauto.
Qed.

(** [findIndex] answers -1 exactly when no record of the collection has
    the identifier. *)
Lemma findIndex_None st id0 :
  findIndex st id0 = None ↔ Forall (λ todo, id todo ≠ id0) (records st).
Proof.
  unfold findIndex, records, view. rewrite findIndexFrom_None, Forall_fmap. done.
Qed.

Lemma findIndex_frame st st' id0 :
  objs st' = objs st → getArr st' (todos st') = getArr st (todos st) →
  findIndex st' id0 = findIndex st id0.
Proof.
  unfold findIndex. intros Ho ->. generalize 0.
  induction (getArr st (todos st)) as [|l arr IH]; intros k; simpl; [done|].
  replace (getObj st' l) with (getObj st l) by (unfold getObj; by rewrite Ho).
  by rewrite IH.
Qed.

(** ** Reading the heaps after a write *)

Lemma getArr_write st' st x :
  todos st < length (arrs st) → arrs st' = <[todos st := x]> (arrs st) →
  getArr st' (todos st) = x.
Proof.
  unfold getArr. intros Ht ->. by apply list_lookup_total_insert_eq.
Qed.

Lemma getObj_alloc st' st x (arr : list objref) :
  objs st' = objs st ++ [x] → Forall (λ l, l < length (objs st)) arr →
  getObj st' <$> arr = getObj st <$> arr.
Proof.
  intros Ho Hr. apply Forall_fmap_ext. eapply Forall_impl; [exact Hr|].
  intros l Hl. unfold getObj. rewrite Ho. by apply lookup_total_app_l.
Qed.

Lemma getObj_alloc_new st' st x :
  objs st' = objs st ++ [x] → getObj st' (length (objs st)) = x.
Proof. unfold getObj. intros ->. by apply list_lookup_total_middle. Qed.

Lemma Forall_lt_weaken (arr : list objref) n m :
  n ≤ m → Forall (λ l, l < n) arr → Forall (λ l, l < m) arr.
Proof.
  intros Hnm H. eapply Forall_impl; [exact H|]. intros l Hl. simpl in *. lia.
Qed.

Lemma not_elem_of_bound (arr : list objref) n :
  Forall (λ l, l < n) arr → n ∉ arr.
Proof. rewrite Forall_forall. intros H Hn. specialize (H _ Hn). simpl in H. lia. Qed.

Lemma elem_of_insert_inv {A : Type} (l : list A) i x y :
  y ∈ <[i:=x]> l → y = x ∨ y ∈ l.
Proof.
  revert i. induction l as [|z l IH]; intros [|i]; simpl; try (by right).
  - rewrite !elem_of_cons. tauto.
  - rewrite !elem_of_cons. intros [->|H]; [tauto|]. apply IH in H. tauto.
Qed.

Lemma NoDup_insert_fresh {A : Type} (l : list A) i x :
  NoDup l → x ∉ l → NoDup (<[i:=x]> l).
Proof.
  revert i. induction l as [|z l IH]; intros [|i] Hn Hx; simpl; try done.
  - apply NoDup_cons in Hn as [_ Hn]. apply NoDup_cons.
    rewrite not_elem_of_cons in Hx. tauto.
  - apply NoDup_cons in Hn as [Hz Hn]. rewrite not_elem_of_cons in Hx.
    apply NoDup_cons. split; [|apply IH; tauto].
    intros H. apply elem_of_insert_inv in H as [->|H]; tauto.
Qed.

(** ** The mutations keep the invariant *)

Lemma wf_cleared os ars td idc :
  td < length ars → Forall (λ l, l < length os) (ars !!! td) →
  NoDup (ars !!! td) →
  wf {| objs := os; arrs := ars; todos := td; idCounter := idc;
        queryCache := [] |}.
Proof.
  intros Ht Hr Hn. split; simpl; try done; try (by constructor).
  unfold JsMap.size, CACHE_SIZE_LIMIT. simpl. lia.
Qed.

Lemma wf_createTodo t d now st : wf st → wf (createTodo t d now st).2.
Proof.
  intros [Ht Hr Hn Hc Hk Hs]. unfold createTodo.
  destruct (JsString.isEmpty (JsString.trim t)); [by split|].
  unfold clearCache, JsMap.clear, getArr in *. simpl. apply wf_cleared.
  - by rewrite length_insert.
  - rewrite list_lookup_total_insert_eq by done. rewrite length_app. simpl.
    apply Forall_app. split.
    + eapply Forall_lt_weaken; [|exact Hr]. lia.
    + repeat constructor. lia.
  - rewrite list_lookup_total_insert_eq by done. apply NoDup_app.
    split; [done|]. split; [|apply NoDup_singleton].
    intros x Hx. rewrite list_elem_of_singleton. intros ->.
    by apply not_elem_of_bound in Hr.
Qed.

Lemma wf_storeUpdated i u st : wf st → wf (storeUpdated i u st).2.
Proof.
  intros [Ht Hr Hn Hc Hk Hs]. unfold storeUpdated.
  unfold clearCache, JsMap.clear, getArr in *. simpl. apply wf_cleared.
  - by rewrite length_insert.
  - rewrite list_lookup_total_insert_eq by done. rewrite length_app. simpl.
    apply Forall_insert; [|lia]. eapply Forall_lt_weaken; [|exact Hr]. lia.
  - rewrite list_lookup_total_insert_eq by done.
    apply NoDup_insert_fresh; [done|]. by apply not_elem_of_bound.
Qed.

Lemma wf_updateTodo i u st : wf st → wf (updateTodo i u st).2.
Proof.
  intros Hwf. unfold updateTodo. destruct (findIndex st i); [|done].
  destruct (u_title u); [|by apply wf_storeUpdated].
  destruct (JsString.isEmpty _); [done | by apply wf_storeUpdated].
Qed.

Lemma length_flipAt l os : length (flipAt l os) = length os.
Proof. apply length_insert. Qed.

Lemma wf_toggleTodo i st : wf st → wf (toggleTodo i st).2.
Proof.
  intros [Ht Hr Hn Hc Hk Hs]. unfold toggleTodo. destruct (findIndex st i); [|done].
  unfold clearCache, JsMap.clear, getArr in *. simpl. apply wf_cleared; try done.
  by rewrite length_flipAt.
Qed.

Lemma wf_deleteTodo i st : wf st → wf (deleteTodo i st).2.
Proof.
  intros [Ht Hr Hn Hc Hk Hs]. unfold deleteTodo. destruct (findIndex st i); [|done].
  unfold clearCache, JsMap.clear, getArr in *. simpl. apply wf_cleared.
  - by rewrite length_insert.
  - rewrite list_lookup_total_insert_eq by done. by apply Forall_delete.
  - rewrite list_lookup_total_insert_eq by done.
    eapply sublist_NoDup; [done | apply sublist_delete].
Qed.

Lemma wf_clearAllTodos st : wf st → wf (clearAllTodos st).2.
Proof.
  intros [Ht Hr Hn Hc Hk Hs]. unfold clearAllTodos.
  unfold clearCache, JsMap.clear. simpl. apply wf_cleared.
  - rewrite length_app. simpl. lia.
  - rewrite list_lookup_total_middle by done. constructor.
  - rewrite list_lookup_total_middle by done. constructor.
Qed.

(** ** The loop of [bulkToggleTodos] *)

Lemma flipAt_lookup l os l' :
  l < length os →
  flipAt l os !!! l' = if decide (l' = l) then flipCompleted (os !!! l) else os !!! l'.
Proof.
  intros Hl. unfold flipAt. destruct (decide (l' = l)) as [->|Hne].
  - by apply list_lookup_total_insert_eq.
  - by apply list_lookup_total_insert_ne.
Qed.

(** Flipping [completed] changes no identifier. *)
Lemma flipAt_id l os l' : id (flipAt l os !!! l') = id (os !!! l').
Proof.
  destruct (decide (l < length os)) as [Hl|Hl].
  - rewrite flipAt_lookup by done. destruct (decide (l' = l)) as [->|]; done.
  - unfold flipAt. rewrite list_insert_ge by lia. done.
Qed.

Lemma bulkToggleLoop_length idSet arr os acc :
  length (bulkToggleLoop idSet arr os acc).1 = length os.
Proof.
  revert os acc. induction arr as [|l arr IH]; intros os acc; simpl; [done|].
  destruct (decide (id (os !!! l) ∈ idSet)); [|apply IH].
  rewrite IH. apply length_flipAt.
Qed.

(** [updatedTodos] collects, in order, the references whose record has its
    identifier in the set. *)
Lemma bulkToggleLoop_updated (idSet : gset N) arr os acc :
  (bulkToggleLoop idSet arr os acc).2
  = acc ++ filter (λ l, id (os !!! l) ∈ idSet) arr.
Proof.
  revert os acc. induction arr as [|l arr IH]; intros os acc; simpl.
  - by rewrite app_nil_r.
  - rewrite filter_cons. destruct (decide (id (os !!! l) ∈ idSet)).
    + rewrite IH, <- app_assoc. simpl. do 2 f_equal.
      apply list_filter_iff. intros l'. by rewrite flipAt_id.
    + apply IH.
Qed.

(** Every record of the array whose identifier is in the set is flipped
    once; every other object is left alone. *)
Lemma bulkToggleLoop_objs (idSet : gset N) arr os acc l' :
  NoDup arr → Forall (λ l, l < length os) arr →
  (bulkToggleLoop idSet arr os acc).1 !!! l'
  = if decide (l' ∈ arr ∧ id (os !!! l') ∈ idSet)
    then flipCompleted (os !!! l') else os !!! l'.
Proof.
  revert os acc. induction arr as [|l arr IH]; intros os acc Hn Hr; simpl.
  - done.
  - apply NoDup_cons in Hn as [Hl Hn]. apply Forall_cons in Hr as [Hlt Hr].
    destruct (decide (id (os !!! l) ∈ idSet)) as [Hin|Hin].
    + rewrite IH; [|done|by rewrite length_flipAt].
      rewrite flipAt_id, flipAt_lookup by done.
      destruct (decide (l' = l)) as [->|Hne].
      * rewrite decide_False by tauto. rewrite decide_True; [done|].
        split; [left | done].
      * destruct (decide (l' ∈ arr ∧ id (os !!! l') ∈ idSet)) as [[H1 H2]|H].
        -- rewrite decide_True; [done|]. split; [by right | done].
        -- rewrite decide_False; [done|]. rewrite elem_of_cons. tauto.
    + rewrite IH by done.
      destruct (decide (l' ∈ arr ∧ id (os !!! l') ∈ idSet)) as [[H1 H2]|H].
      * rewrite decide_True; [done|]. split; [by right | done].
      * rewrite decide_False; [done|]. rewrite elem_of_cons.
        intros [[->|H1] H2]; tauto.
Qed.

Lemma bulkToggleLoop_none (idSet : gset N) arr os acc :
  filter (λ l, id (os !!! l) ∈ idSet) arr = [] →
  bulkToggleLoop idSet arr os acc = (os, acc).
Proof.
  revert acc. induction arr as [|l arr IH]; intros acc; simpl; [done|].
  rewrite filter_cons. destruct (decide (id (os !!! l) ∈ idSet)); [done|].
  apply IH.
Qed.

Lemma filter_none_complement {A : Type} (P : A → Prop) `{!∀ x, Decision (P x)}
  (l : list A) :
  filter P l = [] → filter (λ x, ¬ P x) l = l.
Proof.
  induction l as [|x l IH]; [done|]. rewrite !filter_cons.
  destruct (decide (P x)); [done|]. intros Hnil.
  rewrite decide_True by done. by rewrite IH.
Qed.

Lemma wf_bulkToggleTodos ids st : wf st → wf (bulkToggleTodos ids st).2.
Proof.
  intros [Ht Hr Hn Hc Hk Hs]. unfold bulkToggleTodos.
  pose proof (bulkToggleLoop_length (list_to_set ids) (getArr st (todos st))
                (objs st) []) as Hlen.
  pose proof (bulkToggleLoop_updated (list_to_set ids) (getArr st (todos st))
                (objs st) []) as Hupd.
  destruct (bulkToggleLoop _ _ _ _) as [os upd] eqn:E. simpl in *.
  destruct upd as [|l upd]; simpl.
  - symmetry in Hupd. rewrite (bulkToggleLoop_none _ _ _ _ Hupd) in E.
    injection E as <-. by split.
  - unfold clearCache, JsMap.clear, getArr in *. simpl. apply wf_cleared; try done.
    by rewrite Hlen.
Qed.

Lemma wf_bulkDeleteTodos ids st : wf st → wf (bulkDeleteTodos ids st).2.
Proof.
  intros [Ht Hr Hn Hc Hk Hs]. unfold bulkDeleteTodos.
  set (P := λ l, id (getObj st l) ∈ (list_to_set ids : gset N)).
  set (arr := getArr st (todos st)) in *.
  assert (Hr' : Forall (λ l, l < length (objs st)) (filter (λ l, ¬ P l) arr)).
  { apply Forall_forall. intros l [_ Hl]%list_elem_of_filter.
    rewrite Forall_forall in Hr. by apply Hr. }
  assert (Hn' : NoDup (filter (λ l, ¬ P l) arr)) by by apply NoDup_filter.
  destruct (filter P arr) as [|l del] eqn:E; simpl.
  - set (st' := {| objs := objs st |}).
    assert (Hnew : getArr st' (todos st') = arr).
    { unfold getArr. simpl. rewrite list_lookup_total_middle by done.
      by apply filter_none_complement. }
    split; simpl; fold st'.
    + rewrite length_app. simpl. lia.
    + change (length (arrs st)) with (todos st'). by rewrite Hnew.
    + change (length (arrs st)) with (todos st'). by rewrite Hnew.
    + eapply Forall_impl; [exact Hc|]. intros e He.
      eapply (entryOk_frame st st'); try done.
      * intros a Ha. by eapply getArr_alloc.
      * simpl. rewrite length_app. lia.
      * right. simpl. lia.
    + done.
    + done.
  - unfold clearCache, JsMap.clear, getArr in *. simpl. apply wf_cleared.
    + rewrite length_app. simpl. lia.
    + by rewrite list_lookup_total_middle.
    + by rewrite list_lookup_total_middle.
Qed.

(** ** Every reachable state satisfies the invariant *)

Lemma wf_init : wf init.
Proof.
  split; simpl; try (by constructor);
    unfold JsMap.size, CACHE_SIZE_LIMIT; simpl; lia.
Qed.

Lemma wf_step st o : wf st → wf (step st o).
Proof.
  intros H. destruct o; unfold step;
    [ by apply wf_getTodos | by apply wf_createTodo | by apply wf_updateTodo
    | by apply wf_toggleTodo | by apply wf_deleteTodo
    | by apply wf_bulkToggleTodos | by apply wf_bulkDeleteTodos
    | done | by apply wf_clearAllTodos ].
Qed.

Lemma reachable_wf st : reachable st → wf st.
Proof. induction 1; [apply wf_init | by apply wf_step]. Qed.

Lemma reachable_run st ops : reachable st → reachable (run st ops).
Proof.
  revert st. induction ops as [|o ops IH]; intros st H; [done|].
  simpl. apply IH. by constructor.
Qed.

(** ** Queries *)

Lemma getTodos_objs status q st : objs (getTodos status q st).2 = objs st.
Proof.
  unfold getTodos. by destruct (JsMap.get _ _).
Qed.

Lemma getTodos_todos status q st : todos (getTodos status q st).2 = todos st.
Proof.
  unfold getTodos. by destruct (JsMap.get _ _).
Qed.

Lemma getTodos_idCounter status q st :
  idCounter (getTodos status q st).2 = idCounter st.
Proof.
  unfold getTodos. by destruct (JsMap.get _ _).
Qed.

(** A query leaves every array that exists in place. *)
Lemma getTodos_getArr status q st a :
  a < length (arrs st) → getArr (getTodos status q st).2 a = getArr st a.
Proof.
  intros Ha. unfold getTodos. destruct (JsMap.get _ _); [done|].
  by eapply getArr_alloc.
Qed.

Lemma getTodos_records status q st :
  todos st < length (arrs st) → records (getTodos status q st).2 = records st.
Proof.
  intros Ht. unfold records, view.
  rewrite getTodos_todos, getTodos_getArr by done.
  unfold getObj. by rewrite getTodos_objs.
Qed.

(** On a miss the new array holds the filtered references. *)
Lemma getTodos_miss_view status q st :
  JsMap.get (getCacheKey status q) (queryCache st) = None →
  view (getTodos status q st).2 (getTodos status q st).1 = recompute st status q.
Proof.
  intros E. rewrite (getTodos_miss _ _ _ E). unfold view. simpl.
  rewrite (getArr_alloc_new _ st (filterResults st status q)) by done.
  exact (view_filterResults st status q).
Qed.

(** On a hit, in a state that satisfies the invariant, the cached array
    holds what the filter yields now. *)
Lemma getTodos_hit_view status q st a :
  wf st → JsMap.get (getCacheKey status q) (queryCache st) = Some a →
  view st a = recompute st status q.
Proof.
  intros Hwf E. apply JsMap_get_elem_of in E.
  pose proof (wf_cache _ Hwf) as Hc. rewrite Forall_forall in Hc.
  destruct (Hc _ E) as (_ & _ & status' & q' & Hk & Hv). simpl in *.
  apply getCacheKey_inj in Hk as [<- <-].
  unfold view. rewrite Hv. apply view_filterResults.
Qed.

Lemma getTodos_view status q st :
  wf st →
  view (getTodos status q st).2 (getTodos status q st).1 = recompute st status q.
Proof.
  intros Hwf.
  destruct (JsMap.get (getCacheKey status q) (queryCache st)) as [a|] eqn:E.
  - rewrite (getTodos_hit _ _ _ _ E). simpl. by apply getTodos_hit_view.
  - by apply getTodos_miss_view.
Qed.

Lemma recompute_records st st' status q :
  records st' = records st → recompute st' status q = recompute st status q.
Proof. unfold recompute. by intros ->. Qed.

(** C1: in every state the store can reach, whatever the cache holds, the
    list [getTodos] returns shows the records that filtering the current
    collection yields; the query leaves the collection as it is, so asking
    again gives an equal list, and after any further call (a mutation or
    not) the answer is the filter of the state that call left. *)
Theorem getTodos_reflects_store st status q :
  reachable st →
  let r1 := getTodos status q st in
  view r1.2 r1.1 = recompute st status q ∧
  records r1.2 = records st ∧
  (let r2 := getTodos status q r1.2 in view r2.2 r2.1 = view r1.2 r1.1) ∧
  (∀ o, let st2 := step r1.2 o in
        let r3 := getTodos status q st2 in
        view r3.2 r3.1 = recompute st2 status q).
Proof.
  intros Hr. pose proof (reachable_wf _ Hr) as Hwf. cbv zeta.
  assert (Hwf1 : wf (getTodos status q st).2) by by apply wf_getTodos.
  assert (Hrec : records (getTodos status q st).2 = records st).
  { apply getTodos_records, (wf_todos _ Hwf). }
  split; [by apply getTodos_view|]. split; [done|]. split.
  - rewrite !getTodos_view by done. by apply recompute_records.
  - intros o. apply getTodos_view. by apply wf_step.
Qed.

Lemma getTodos_reflects_store_witness :
  reachable sampleStore ∧
  view (getTodos "active" "" sampleStore).2 (getTodos "active" "" sampleStore).1
  = recompute sampleStore "active" "".
Proof.
  assert (H : reachable sampleStore) by apply reachable_run, reachable_init.
  split; [exact H|].
  exact (proj1 (getTodos_reflects_store sampleStore "active" "" H)).
Defined.

(** ** What a computed query keeps *)

Lemma filter_all {A : Type} (P : A → Prop) `{!∀ x, Decision (P x)} (l : list A) :
  (∀ x, P x) → filter P l = l.
Proof.
  intros HP. induction l as [|x l IH]; [done|].
  rewrite filter_cons, decide_True by done. by rewrite IH.
Qed.

Lemma statusCallback_spec status todo :
  status ≠ "all" → statusCallback status todo ↔ specStatusKeeps status todo.
Proof.
  intros Hne. unfold statusCallback, specStatusKeeps.
  rewrite Is_true_true, Bool.eqb_true_iff.
  destruct (String.eqb_spec status "completed") as [->|Hc].
  - rewrite bool_decide_eq_true_2 by done. split; [by right | by intros [?|?]].
  - rewrite bool_decide_eq_false_2 by done. split; [by right | by intros [?|?]].
Qed.

Lemma searchCallback_spec q todo :
  q ≠ "" →
  searchCallback (JsString.toLowerCase q) todo ↔ specTextKeeps q todo.
Proof.
  intros Hq. unfold searchCallback, specTextKeeps.
  rewrite Is_true_true, orb_true_iff, andb_true_iff, !includes_spec.
  split.
  - intros [H|[_ H]]; [right; by left | right; by right].
  - intros [H|[H|H]]; [done | by left | right]. split; [|done].
    destruct (description todo) as [|c d]; [|done]. exfalso.
    apply includes_spec in H. rewrite includes_empty_l in H; [done|].
    rewrite isEmpty_toLowerCase. by destruct q.
Qed.

(** The filter of the code is the filter the specification words. *)
Lemma recompute_spec st status q :
  recompute st status q
  = filter (specTextKeeps q) (filter (specStatusKeeps status) (records st)).
Proof.
  unfold recompute, applyFilters.
  assert (Hs : (if negb (status =? "all")%string
                then filter (λ x, statusCallback status x) (records st)
                else records st)
               = filter (specStatusKeeps status) (records st)).
  { destruct (String.eqb_spec status "all") as [->|Hne]; simpl.
    - symmetry. apply filter_all. intros x. by left.
    - apply list_filter_iff. intros x. by apply statusCallback_spec. }
  rewrite Hs. destruct q as [|c q]; simpl.
  - symmetry. apply filter_all. intros x. by left.
  - apply list_filter_iff. intros x.
    by apply (searchCallback_spec (String c q)).
Qed.

(** C2: a query that is not answered from the cache keeps, of the records
    of the collection, exactly those the status filter keeps (every record
    for "all", else those whose [completed] equals [status = "completed"])
    and then, for a non-empty text, exactly those whose lower-cased title
    or description contains the lower-cased text; the result is a
    subsequence of the collection, and for "all" with the empty text it is
    the whole collection in order.  In a reachable state the last holds
    for cached answers too. *)
Theorem getTodos_computes_filter st status q :
  (JsMap.has (getCacheKey status q) (queryCache st) = false →
   let r := getTodos status q st in
   view r.2 r.1
   = filter (specTextKeeps q) (filter (specStatusKeeps status) (records st)) ∧
   view r.2 r.1 `sublist_of` records st ∧
   (status = "all" → q = "" → view r.2 r.1 = records st)) ∧
  (reachable st →
   let r := getTodos "all" "" st in view r.2 r.1 = records st).
Proof.
  split.
  - unfold JsMap.has. intros Hmiss. cbv zeta.
    destruct (JsMap.get _ _) eqn:E; [done|].
    rewrite (getTodos_miss_view _ _ _ E). split; [apply recompute_spec|].
    split; [apply applyFilters_sublist|]. by intros -> ->.
  - intros Hr. cbv zeta. rewrite getTodos_view by by apply reachable_wf. done.
Qed.

Lemma getTodos_computes_filter_witness :
  view (getTodos "all" "BILLS" sampleStore).2 (getTodos "all" "BILLS" sampleStore).1
  = filter (specTextKeeps "BILLS")
      (filter (specStatusKeeps "all") (records sampleStore)).
Proof.
  exact (proj1 (proj1 (getTodos_computes_filter sampleStore "all" "BILLS")
                  eq_refl)).
Defined.

(** ** [createTodo] *)

Lemma orEmpty_id s : orEmpty s = s.
Proof. by destruct s. Qed.

Lemma createTodo_throw t d now st :
  JsString.trim t = "" → createTodo t d now st = (Throw "Title is required", st).
Proof. unfold createTodo. by intros ->. Qed.

Lemma createTodo_return t d now st :
  JsString.trim t ≠ "" →
  createTodo t d now st =
    (Return (length (objs st)),
     {| objs := objs st ++ [mkTodo (idCounter st) (JsString.trim t) d false now];
        arrs := <[todos st := getArr st (todos st) ++ [length (objs st)]]> (arrs st);
        todos := todos st;
        idCounter := (idCounter st + 1)%N;
        queryCache := [] |}).
Proof.
  unfold createTodo. intros H. rewrite orEmpty_id.
  by destruct (JsString.trim t).
Qed.

Lemma createTodo_records t d now st :
  wf st → JsString.trim t ≠ "" →
  records (createTodo t d now st).2
  = records st ++ [mkTodo (idCounter st) (JsString.trim t) d false now].
Proof.
  intros Hwf Ht. rewrite createTodo_return by done. unfold records, view. simpl.
  set (new := mkTodo _ _ _ _ _). set (st' := {| objs := objs st ++ [new] |}).
  rewrite (getArr_write st' st _ (wf_todos _ Hwf) eq_refl).
  rewrite fmap_app. simpl. f_equal.
  - exact (getObj_alloc st' st new _ eq_refl (wf_refs _ Hwf)).
  - f_equal. exact (getObj_alloc_new st' st new eq_refl).
Qed.

(** C3: [createTodo] throws "Title is required" exactly when the title is
    empty after trimming, which covers a title of white space only;
    otherwise the record it returns has the trimmed title, the given
    description, [completed = false] and the current counter as its id,
    the counter goes up by one, and the record is the new last element of
    the collection. *)
Theorem createTodo_spec st title0 description0 now :
  reachable st →
  let r := createTodo title0 description0 now st in
  (allWhiteSpace title0 = true → JsString.trim title0 = "") ∧
  if decide (JsString.trim title0 = "")
  then r = (Throw "Title is required", st)
  else ∃ l, r.1 = Return l ∧
            getObj r.2 l = {| id := idCounter st;
                              title := JsString.trim title0;
                              description := description0;
                              completed := false;
                              createdAt := now |} ∧
            records r.2 = records st ++ [getObj r.2 l] ∧
            idCounter r.2 = (idCounter st + 1)%N.
Proof.
  intros Hr. pose proof (reachable_wf _ Hr) as Hwf. cbv zeta. split.
  { intros H. apply isEmpty_true. by rewrite trim_allWhiteSpace. }
  destruct (decide (JsString.trim title0 = "")) as [E|E].
  - by apply createTodo_throw.
  - exists (length (objs st)).
    rewrite (createTodo_records _ _ _ _ Hwf E), createTodo_return by done.
    simpl. unfold getObj. simpl.
    rewrite list_lookup_total_middle by done. done.
Qed.

Lemma createTodo_spec_witness :
  createTodo " " "d" "now" sampleStore = (Throw "Title is required", sampleStore).
Proof.
  exact (proj2 (createTodo_spec sampleStore " " "d" "now"
                  (reachable_run init sampleOps reachable_init))).
Defined.

(** ** [updateTodo] *)

Lemma storeUpdated_records i u st :
  wf st → i < length (getArr st (todos st)) →
  records (storeUpdated i u st).2 = <[i := u]> (records st) ∧
  getObj (storeUpdated i u st).2 (length (objs st)) = u.
Proof.
  intros Hwf Hi. unfold storeUpdated, clearCache, records, view. simpl.
  set (st' := {| objs := objs st ++ [u] |}).
  assert (Hu : getObj st' (length (objs st)) = u) by by eapply getObj_alloc_new.
  split; [|done].
  rewrite (getArr_write st' st _ (wf_todos _ Hwf) eq_refl).
  rewrite list_fmap_insert, Hu. f_equal.
  exact (getObj_alloc st' st u _ eq_refl (wf_refs _ Hwf)).
Qed.

Lemma records_lookup_total st i :
  i < length (getArr st (todos st)) →
  records st !!! i = getObj st (getArr st (todos st) !!! i).
Proof.
  intros Hi. unfold records, view.
  apply list_lookup_total_correct. rewrite list_lookup_fmap.
  by rewrite (list_lookup_lookup_total_lt _ _ Hi).
Qed.

Lemma updateTodo_found id0 u st i :
  findIndex st id0 = Some i →
  updateTodo id0 u st =
    if titleBlank u then (Throw "Title is required", st)
    else storeUpdated i (specUpdated (records st !!! i) u) st.
Proof.
  intros E. pose proof (findIndex_Some _ _ _ E) as [Hi _].
  unfold updateTodo, titleBlank. rewrite E.
  rewrite records_lookup_total by done.
  destruct u as [[t|] ud uc]; simpl; [|done].
  by destruct (JsString.isEmpty (JsString.trim t)).
Qed.

(** C5: [updateTodo] returns null when no record has the id.  Otherwise,
    with [todo] the record found: if a title is supplied and trims to the
    empty string it throws "Title is required"; else it returns a record
    that takes the place of [todo] in the collection, with the id and
    [createdAt] of [todo], each supplied field set (the title trimmed) and
    each field not supplied as in [todo]; no other record changes. *)
Theorem updateTodo_spec st id0 updates :
  reachable st →
  let r := updateTodo id0 updates st in
  (findIndex st id0 = None ↔ Forall (λ todo, id todo ≠ id0) (records st)) ∧
  match findIndex st id0 with
  | None => r = (Return None, st)
  | Some i =>
      let todo := records st !!! i in
      records st !! i = Some todo ∧ id todo = id0 ∧
      if titleBlank updates then r = (Throw "Title is required", st)
      else ∃ l, r.1 = Return (Some l) ∧
                let new := getObj r.2 l in
                records r.2 = <[i := new]> (records st) ∧
                id new = id todo ∧ createdAt new = createdAt todo ∧
                title new = match u_title updates with
                            | Some t => JsString.trim t
                            | None => title todo
                            end ∧
                description new = default (description todo) (u_description updates) ∧
                completed new = default (completed todo) (u_completed updates)
  end.
Proof.
  intros Hr. pose proof (reachable_wf _ Hr) as Hwf. cbv zeta.
  split; [apply findIndex_None|].
  destruct (findIndex st id0) as [i|] eqn:E.
  - pose proof (findIndex_Some _ _ _ E) as [Hi Hid].
    assert (Hlen : i < length (records st)).
    { unfold records, view. by rewrite length_fmap. }
    split; [by apply list_lookup_lookup_total_lt|].
    split. { by rewrite records_lookup_total. }
    rewrite (updateTodo_found _ _ _ _ E).
    destruct (titleBlank updates); [done|].
    destruct (storeUpdated_records i (specUpdated (records st !!! i) updates)
                st Hwf Hi) as [Hrec Hnew].
    exists (length (objs st)). split; [done|]. rewrite Hnew. split; [done|].
    destruct updates as [ut [ud|] [uc|]]; done.
  - unfold updateTodo. by rewrite E.
Qed.

Lemma updateTodo_spec_witness :
  reachable sampleStore ∧
  ∃ l, (updateTodo 2%N (mkUpdates (Some " Pay rent ") None (Some true))
          sampleStore).1 = Return (Some l).
Proof.
  assert (H : reachable sampleStore) by apply reachable_run, reachable_init.
  split; [exact H|].
  destruct (proj2 (updateTodo_spec sampleStore 2%N
                     (mkUpdates (Some " Pay rent ") None (Some true)) H))
    as (_ & _ & l & Hl & _).
  exists l. exact Hl.
Defined.

(** ** Validation failures *)

Lemma createTodo_Throw_inv t d now st msg st' :
  createTodo t d now st = (Throw msg, st') → st' = st ∧ JsString.trim t = "".
Proof.
  unfold createTodo. destruct (JsString.trim t); simpl; [|done].
  by intros [= _ <-].
Qed.

Lemma updateTodo_Throw_inv id0 u st msg st' :
  updateTodo id0 u st = (Throw msg, st') →
  st' = st ∧ ∃ t, u_title u = Some t ∧ JsString.trim t = "".
Proof.
  unfold updateTodo, storeUpdated. destruct (findIndex st id0); [|done].
  destruct (u_title u) as [t|]; [|done].
  destruct (JsString.trim t) eqn:E; simpl; [|done].
  intros [= _ <-]. split; [done|]. by exists t.
Qed.

(** C10: when [createTodo] or [updateTodo] throws, the state it leaves is
    the state it was called in, the heaps, the collection, the counter
    and the cache all included, and the (supplied) title trims to the
    empty string; conversely a title that trims to the empty string makes
    [createTodo] throw, and makes [updateTodo] throw for every id the
    collection has, whatever other fields are supplied. *)
Theorem validation_failure_atomic st :
  (∀ t d now msg st',
     createTodo t d now st = (Throw msg, st') →
     st' = st ∧ JsString.trim t = "") ∧
  (∀ id0 u msg st',
     updateTodo id0 u st = (Throw msg, st') →
     st' = st ∧ ∃ t, u_title u = Some t ∧ JsString.trim t = "") ∧
  (∀ t d now,
     JsString.trim t = "" →
     createTodo t d now st = (Throw "Title is required", st)) ∧
  (∀ id0 t ud uc,
     JsString.trim t = "" → is_Some (findIndex st id0) →
     updateTodo id0 (mkUpdates (Some t) ud uc) st
     = (Throw "Title is required", st)).
Proof.
  split; [intros; by eapply createTodo_Throw_inv|].
  split; [intros; by eapply updateTodo_Throw_inv|].
  split; [intros; by apply createTodo_throw|].
  intros id0 t ud uc Ht [i Hi]. rewrite (updateTodo_found _ _ _ _ Hi).
  unfold titleBlank. simpl. by rewrite Ht.
Qed.

Lemma validation_failure_atomic_witness :
  updateTodo 2%N (mkUpdates (Some "   ") (Some "rent") (Some true)) sampleStore
  = (Throw "Title is required", sampleStore).
Proof.
  apply (proj2 (proj2 (proj2 (validation_failure_atomic sampleStore)))).
  - reflexivity.
  - exists 1. reflexivity.
Defined.

(** ** Identifiers *)

Lemma step_idCounter st o :
  isClearAll o = false → (idCounter st ≤ idCounter (step st o))%N.
Proof.
  intros Ho. destruct o; try done; unfold step.
  - by rewrite getTodos_idCounter.
  - unfold createTodo. destruct (JsString.isEmpty _); simpl; lia.
  - unfold updateTodo, storeUpdated. destruct (findIndex _ _); [|done].
    destruct (u_title _); [destruct (JsString.isEmpty _)|]; done.
  - unfold toggleTodo. by destruct (findIndex _ _).
  - unfold deleteTodo. by destruct (findIndex _ _).
  - unfold bulkToggleTodos. destruct (bulkToggleLoop _ _ _ _) as [os upd].
    simpl. by destruct (0 <? length upd).
  - unfold bulkDeleteTodos. simpl. by destruct (0 <? length _).
Qed.

Lemma createTodo_idCounter t d now st :
  JsString.trim t ≠ "" →
  idCounter (step st (OpCreate t d now)) = (idCounter st + 1)%N.
Proof. intros E. unfold step. by rewrite createTodo_return. Qed.

Lemma run_idCounter st ops :
  forallb (λ o, negb (isClearAll o)) ops = true →
  (idCounter st ≤ idCounter (run st ops))%N.
Proof.
  revert st. induction ops as [|o ops IH]; intros st; simpl; [lia|].
  rewrite andb_true_iff, negb_true_iff. intros [Ho Hops].
  etrans; [by apply step_idCounter | by apply IH].
Qed.

Lemma createdIds_cons st o ops :
  createdIds st (o :: ops)
  = match o with
    | OpCreate t d now =>
        if decide (JsString.trim t = "") then [] else [idCounter st]
    | _ => []
    end ++ createdIds (step st o) ops.
Proof.
  simpl. f_equal. destruct o; try done.
  destruct (decide (JsString.trim title0 = "")) as [E|E].
  - by rewrite createTodo_throw.
  - unfold step. rewrite createTodo_return by done. simpl.
    unfold getObj. simpl. by rewrite list_lookup_total_middle.
Qed.

Lemma createdIds_bounds st ops :
  forallb (λ o, negb (isClearAll o)) ops = true →
  Forall (λ i, (idCounter st ≤ i < idCounter (run st ops))%N) (createdIds st ops).
Proof.
  revert st. induction ops as [|o ops IH]; intros st Hops; [constructor|].
  rewrite createdIds_cons. pose proof Hops as Hops'. simpl in Hops.
  apply andb_true_iff in Hops as [Ho Hrest]. apply negb_true_iff in Ho.
  pose proof (step_idCounter st o Ho) as Hstep.
  pose proof (run_idCounter (step st o) ops Hrest) as Hrun.
  apply Forall_app. split.
  - destruct o; try constructor.
    destruct (decide (JsString.trim title0 = "")) as [E|E]; constructor;
      [|constructor].
    pose proof (createTodo_idCounter title0 description0 now st E) as Hc.
    change (run st (OpCreate title0 description0 now :: ops))
      with (run (step st (OpCreate title0 description0 now)) ops). lia.
  - eapply Forall_impl; [by apply IH|]. intros i Hi.
    change (run st (o :: ops)) with (run (step st o) ops). simpl in Hi. lia.
Qed.

(** C4, as amended: along calls that include no [clearAllTodos] (deletes
    included) the ids the successful creates return are strictly
    increasing, each at least the counter of the starting state and below
    the final counter, so none is handed out twice; [clearAllTodos] sets
    the counter back to 1 and empties the collection. *)
Theorem createdIds_increasing st ops :
  forallb (λ o, negb (isClearAll o)) ops = true →
  StronglySorted N.lt (createdIds st ops) ∧
  Forall (λ i, (idCounter st ≤ i < idCounter (run st ops))%N) (createdIds st ops) ∧
  idCounter (clearAllTodos (run st ops)).2 = 1%N ∧
  records (clearAllTodos (run st ops)).2 = [].
Proof.
  intros Hops. split; [|split; [by apply createdIds_bounds|]].
  - revert st Hops. induction ops as [|o ops IH]; intros st Hops; [constructor|].
    rewrite createdIds_cons. simpl in Hops.
    apply andb_true_iff in Hops as [Ho Hrest]. apply negb_true_iff in Ho.
    pose proof (createdIds_bounds (step st o) ops Hrest) as Hb.
    destruct o; try (by apply IH). simpl.
    destruct (decide (JsString.trim title0 = "")) as [E|E]; [by apply IH|].
    simpl. constructor; [by apply IH|].
    pose proof (createTodo_idCounter title0 description0 now st E) as Hc.
    eapply Forall_impl; [exact Hb|]. intros i Hi. cbv beta in Hi. lia.
  - split; [done|]. unfold records, view, getArr. simpl.
    by rewrite list_lookup_total_middle.
Qed.

Lemma createdIds_increasing_witness :
  StronglySorted N.lt
    (createdIds init [OpCreate "a" "" "t1"; OpCreate "b" "" "t2"; OpDelete 2%N;
                      OpCreate "c" "" "t3"]).
Proof.
  exact (proj1 (createdIds_increasing init
                  [OpCreate "a" "" "t1"; OpCreate "b" "" "t2"; OpDelete 2%N;
                   OpCreate "c" "" "t3"] eq_refl)).
Defined.

(** C4 as stated fails: after [clearAllTodos] the next create returns id 1
    again. *)
Lemma createdIds_reused_after_clearAll :
  createdIds init [OpCreate "a" "" "t1"; OpCreate "b" "" "t2"; OpClearAll;
                   OpCreate "c" "" "t3"]
  = [1; 2; 1]%N.
Proof. reflexivity. Qed.

(** ** A failed delete *)

(** Asking the same query again is a hit: the same array, the same state. *)
Lemma getTodos_again status q st :
  getTodos status q (getTodos status q st).2
  = ((getTodos status q st).1, (getTodos status q st).2).
Proof.
  destruct (JsMap.get (getCacheKey status q) (queryCache st)) as [a|] eqn:E.
  - rewrite (getTodos_hit _ _ _ _ E). simpl. by apply getTodos_hit.
  - rewrite (getTodos_miss _ _ _ E). simpl. apply getTodos_hit. simpl.
    apply JsMap_get_set.
Qed.

Lemma deleteTodo_missing id0 st :
  Forall (λ todo, id todo ≠ id0) (records st) →
  deleteTodo id0 st = (Return None, st).
Proof.
  intros H. apply findIndex_None in H. unfold deleteTodo. by rewrite H.
Qed.

(** C8: for an id no record of the collection has, [deleteTodo] returns
    null and leaves the state, the cache included, as it was; so after a
    query, a failed delete, and the same query again, the second query is
    answered by the very array the first one returned. *)
Theorem deleteTodo_missing_keeps_cache st id0 status q :
  reachable st →
  Forall (λ todo, id todo ≠ id0) (records st) →
  deleteTodo id0 st = (Return None, st) ∧
  let r1 := getTodos status q st in
  let d := deleteTodo id0 r1.2 in
  d = (Return None, r1.2) ∧
  getTodos status q d.2 = (r1.1, r1.2).
Proof.
  intros Hr Hid. pose proof (reachable_wf _ Hr) as Hwf. cbv zeta.
  split; [by apply deleteTodo_missing|].
  assert (Hd : deleteTodo id0 (getTodos status q st).2
               = (Return None, (getTodos status q st).2)).
  { apply deleteTodo_missing. rewrite getTodos_records; [done|].
    apply (wf_todos _ Hwf). }
  split; [done|]. rewrite Hd. simpl. apply getTodos_again.
Qed.

Lemma deleteTodo_missing_keeps_cache_witness :
  reachable sampleStore ∧
  deleteTodo 7%N sampleStore = (Return None, sampleStore).
Proof.
  assert (H : reachable sampleStore) by apply reachable_run, reachable_init.
  split; [exact H|].
  refine (proj1 (deleteTodo_missing_keeps_cache sampleStore 7%N "all" "" H _)).
  unfold sampleStore, records, view. simpl. repeat constructor; discriminate.
Defined.

(** ** Bulk operations *)

Lemma bulkToggleTodos_unfold ids st :
  let loop := bulkToggleLoop (list_to_set ids) (getArr st (todos st)) (objs st) [] in
  let st' := {| objs := loop.1; arrs := arrs st; todos := todos st;
                idCounter := idCounter st; queryCache := queryCache st |} in
  bulkToggleTodos ids st
  = (Return loop.2, if 0 <? length loop.2 then clearCache st' else st').
Proof. unfold bulkToggleTodos. by destruct (bulkToggleLoop _ _ _ _). Qed.

Lemma bulkToggleTodos_lookup ids st l :
  wf st → l ∈ getArr st (todos st) →
  getObj (bulkToggleTodos ids st).2 l = toggleIfIn ids (getObj st l).
Proof.
  intros Hwf Hl. rewrite bulkToggleTodos_unfold. cbv zeta.
  set (loop := bulkToggleLoop _ _ _ _).
  assert (Ho : loop.1 !!! l = toggleIfIn ids (getObj st l)).
  { subst loop.
    rewrite bulkToggleLoop_objs by (apply (wf_nodup _ Hwf) || apply (wf_refs _ Hwf)).
    unfold toggleIfIn, getObj.
    destruct (decide (id (objs st !!! l) ∈ ids)) as [Hin|Hin].
    - rewrite decide_True; [done|]. by rewrite elem_of_list_to_set.
    - rewrite decide_False; [done|]. rewrite elem_of_list_to_set. tauto. }
  by destruct (0 <? length loop.2).
Qed.

Lemma bulkToggleTodos_records ids st :
  wf st → records (bulkToggleTodos ids st).2 = toggleIfIn ids <$> records st.
Proof.
  intros Hwf. unfold records, view. rewrite <- list_fmap_compose.
  assert (Harr : getArr (bulkToggleTodos ids st).2 (todos (bulkToggleTodos ids st).2)
                 = getArr st (todos st)).
  { rewrite bulkToggleTodos_unfold. cbv zeta. by destruct (0 <? _). }
  rewrite Harr. apply Forall_fmap_ext, Forall_forall. intros l Hl.
  by apply bulkToggleTodos_lookup.
Qed.

Lemma filter_ids_set (ids : list N) (f : objref → N) (arr : list objref) :
  filter (λ l, f l ∈ (list_to_set ids : gset N)) arr = filter (λ l, f l ∈ ids) arr.
Proof. apply list_filter_iff. intros l. by rewrite elem_of_list_to_set. Qed.

Lemma filter_ids_set_not (ids : list N) (f : objref → N) (arr : list objref) :
  filter (λ l, f l ∉ (list_to_set ids : gset N)) arr = filter (λ l, f l ∉ ids) arr.
Proof. apply list_filter_iff. intros l. by rewrite elem_of_list_to_set. Qed.

Lemma fmap_filter_ids st (ids : list N) (arr : list objref) :
  getObj st <$> filter (λ l, id (getObj st l) ∈ ids) arr
  = filter (λ todo, id todo ∈ ids) (getObj st <$> arr).
Proof. apply (fmap_filter_deref (getObj st) (λ t, id t ∈ ids)). Qed.

Lemma fmap_filter_ids_not st (ids : list N) (arr : list objref) :
  getObj st <$> filter (λ l, id (getObj st l) ∉ ids) arr
  = filter (λ todo, id todo ∉ ids) (getObj st <$> arr).
Proof. apply (fmap_filter_deref (getObj st) (λ t, id t ∉ ids)). Qed.

Lemma bulkToggleTodos_returned ids st :
  wf st →
  ∃ upd, (bulkToggleTodos ids st).1 = Return upd ∧
         upd = filter (λ l, id (getObj st l) ∈ ids) (getArr st (todos st)) ∧
         queryCache (bulkToggleTodos ids st).2
         = if decide (upd = []) then queryCache st else [].
Proof.
  intros Hwf. rewrite bulkToggleTodos_unfold. cbv zeta.
  rewrite bulkToggleLoop_updated. simpl.
  rewrite (filter_ids_set ids (λ l, id (objs st !!! l))).
  eexists. split; [done|]. split; [done|].
  by destruct (filter _ _).
Qed.

Lemma bulkDeleteTodos_spec ids st :
  let del := filter (λ l, id (getObj st l) ∈ ids) (getArr st (todos st)) in
  (bulkDeleteTodos ids st).1 = Return del ∧
  records (bulkDeleteTodos ids st).2 = filter (λ todo, id todo ∉ ids) (records st) ∧
  objs (bulkDeleteTodos ids st).2 = objs st ∧
  queryCache (bulkDeleteTodos ids st).2
  = if decide (del = []) then queryCache st else [].
Proof.
  cbv zeta. unfold bulkDeleteTodos.
  rewrite (filter_ids_set ids (λ l, id (getObj st l))).
  rewrite (filter_ids_set_not ids (λ l, id (getObj st l))).
  set (del := filter _ _). set (keep := filter _ _).
  set (st' := {| objs := objs st |}).
  assert (Hrec : records st' = filter (λ todo, id todo ∉ ids) (records st)).
  { unfold records, view, getArr. simpl.
    rewrite list_lookup_total_middle by done.
    exact (fmap_filter_ids_not st ids (getArr st (todos st))). }
  simpl. split; [done|]. by destruct del.
Qed.

(** C6: [bulkToggleTodos] negates [completed] once on each record whose id
    occurs in [ids], however often it occurs, and keeps the record's id,
    title, description and creation time; it changes no other record and
    no position, returns the negated records and throws for no id;
    [bulkDeleteTodos] keeps, in their order, exactly the records whose id
    does not occur in [ids] and returns the others; each empties the
    query cache when it returns a non-empty list and leaves the cache as
    it is otherwise. *)
Theorem bulk_operations_spec st ids :
  reachable st →
  (let r := bulkToggleTodos ids st in
   ∃ upd, r.1 = Return upd ∧
          records r.2
          = (λ old, {| id := id old; title := title old;
                       description := description old;
                       completed := if decide (id old ∈ ids)
                                    then negb (completed old)
                                    else completed old;
                       createdAt := createdAt old |}) <$> records st ∧
          getObj r.2 <$> upd
          = (λ old, {| id := id old; title := title old;
                       description := description old;
                       completed := negb (completed old);
                       createdAt := createdAt old |})
              <$> filter (λ todo, id todo ∈ ids) (records st) ∧
          queryCache r.2 = if decide (upd = []) then queryCache st else []) ∧
  (let r := bulkDeleteTodos ids st in
   ∃ del, r.1 = Return del ∧
          records r.2 = filter (λ todo, id todo ∉ ids) (records st) ∧
          getObj r.2 <$> del = filter (λ todo, id todo ∈ ids) (records st) ∧
          queryCache r.2 = if decide (del = []) then queryCache st else []).
Proof.
  intros Hr. pose proof (reachable_wf _ Hr) as Hwf. cbv zeta. split.
  - destruct (bulkToggleTodos_returned ids st Hwf) as (upd & Hret & Hupd & Hc).
    exists upd. split; [done|]. split.
    { rewrite bulkToggleTodos_records by done.
      apply list_fmap_ext. intros i [n t d c a] _. unfold toggleIfIn. simpl.
      by destruct (decide (n ∈ ids)). }
    split; [|done]. change (λ old : Todo, mkTodo _ _ _ _ _) with flipCompleted.
    unfold records, view. rewrite <- fmap_filter_ids, <- Hupd.
    rewrite <- list_fmap_compose. apply Forall_fmap_ext, Forall_forall.
    intros l Hl. rewrite Hupd in Hl. apply list_elem_of_filter in Hl as [Hin Hl].
    rewrite bulkToggleTodos_lookup by done. unfold toggleIfIn. simpl.
    by rewrite decide_True.
  - destruct (bulkDeleteTodos_spec ids st) as (Hret & Hrec & Ho & Hc).
    eexists. split; [exact Hret|]. split; [done|]. split; [|done].
    unfold records, view, getObj. rewrite Ho. apply fmap_filter_ids.
Qed.

Lemma bulk_operations_spec_witness :
  reachable sampleStore ∧
  completed <$> records sampleStore = [true; false] ∧
  completed <$> records (bulkToggleTodos [2; 2; 9]%N sampleStore).2 = [true; true].
Proof.
  assert (H : reachable sampleStore) by apply reachable_run, reachable_init.
  split; [exact H|]. split; [reflexivity|].
  destruct (proj1 (bulk_operations_spec sampleStore [2; 2; 9]%N H))
    as (upd & _ & Hrec & _).
  exact (eq_trans (f_equal (fmap completed) Hrec) eq_refl).
Defined.

(** ** Returned lists *)

Lemma heapStep_step st o : heapStep st (step st o).
Proof.
  unfold heapStep. destruct o; unfold step.
  - unfold getTodos. destruct (JsMap.get _ _); simpl; [by left|].
    right; right. eexists. split; [done | by left].
  - unfold createTodo. destruct (JsString.isEmpty _); simpl; [by left|].
    right; left. by eexists.
  - unfold updateTodo, storeUpdated. destruct (findIndex _ _); [|by left].
    destruct (u_title _); [destruct (JsString.isEmpty _)|]; simpl;
      try (by left); right; left; by eexists.
  - unfold toggleTodo. destruct (findIndex _ _); simpl; by left.
  - unfold deleteTodo. destruct (findIndex _ _); simpl; [|by left].
    right; left. by eexists.
  - rewrite bulkToggleTodos_unfold. cbv zeta. simpl.
    destruct (0 <? _); simpl; by left.
  - unfold bulkDeleteTodos. simpl.
    destruct (0 <? _); simpl; right; right; eexists; (split; [done | by right]).
  - by left.
  - unfold clearAllTodos. simpl. right; right. eexists. split; [done | by right].
Qed.

(** A call leaves every array other than [todos] as it is, and the new
    [todos] is not one of them. *)
Lemma heapStep_keeps st st' a :
  heapStep st st' →
  todos st < length (arrs st) → a < length (arrs st) → a ≠ todos st →
  getArr st' a = getArr st a ∧
  todos st' < length (arrs st') ∧ a < length (arrs st') ∧ a ≠ todos st'.
Proof.
  unfold getArr.
  intros [[-> ->]|[(x & -> & ->)|(x & -> & Ht)]] Htd Ha Hne.
  - done.
  - rewrite list_lookup_total_insert_ne, length_insert by done. done.
  - rewrite lookup_total_app_l, length_app by done. simpl.
    split; [done|]. destruct Ht as [-> | ->]; lia.
Qed.

Lemma run_keeps st ops a :
  todos st < length (arrs st) → a < length (arrs st) → a ≠ todos st →
  getArr (run st ops) a = getArr st a.
Proof.
  revert st. induction ops as [|o ops IH]; intros st Htd Ha Hne; [done|].
  destruct (heapStep_keeps st (step st o) a (heapStep_step st o) Htd Ha Hne)
    as (Hget & Htd' & Ha' & Hne').
  simpl. rewrite IH by done. done.
Qed.

Lemma getTodos_cached status q st :
  JsMap.get (getCacheKey status q) (queryCache (getTodos status q st).2)
  = Some (getTodos status q st).1.
Proof.
  destruct (JsMap.get (getCacheKey status q) (queryCache st)) as [a|] eqn:E.
  - by rewrite (getTodos_hit _ _ _ _ E).
  - rewrite (getTodos_miss _ _ _ E). simpl. apply JsMap_get_set.
Qed.

Lemma callerWrites_records a contents st :
  a ≠ todos st → records (callerWrites a contents st) = records st.
Proof.
  intros Hne. unfold records, view, getArr, callerWrites. simpl.
  by rewrite list_lookup_total_insert_ne.
Qed.

(** C7, as amended: the array [getTodos] returns is never the array of the
    store's collection; whatever a caller writes into it, the collection
    shows the same records; and no later call of a store operation
    changes which record objects the returned array holds, or their
    order.  (The record objects themselves are the store's.) *)
Theorem getTodos_returns_shallow_copy st status q :
  reachable st →
  let r := getTodos status q st in
  r.1 ≠ todos r.2 ∧
  (∀ contents, records (callerWrites r.1 contents r.2) = records r.2) ∧
  (∀ ops, getArr (run r.2 ops) r.1 = getArr r.2 r.1).
Proof.
  intros Hr. cbv zeta.
  assert (Hwf : wf (getTodos status q st).2).
  { apply wf_getTodos. by apply reachable_wf. }
  pose proof (JsMap_get_elem_of _ _ _ (getTodos_cached status q st)) as Hin.
  pose proof (wf_cache _ Hwf) as Hc. rewrite Forall_forall in Hc.
  destruct (Hc _ Hin) as (Hlt & Hne & _). simpl in Hlt, Hne.
  split; [done|]. split.
  - intros contents. by apply callerWrites_records.
  - intros ops. apply run_keeps; [apply (wf_todos _ Hwf) | done | done].
Qed.

Lemma getTodos_returns_shallow_copy_witness :
  reachable sampleStore ∧
  ∀ ops, getArr (run (getTodos "all" "" sampleStore).2 ops)
           (getTodos "all" "" sampleStore).1
         = getArr (getTodos "all" "" sampleStore).2 (getTodos "all" "" sampleStore).1.
Proof.
  assert (H : reachable sampleStore) by apply reachable_run, reachable_init.
  split; [exact H|].
  exact (proj2 (proj2 (getTodos_returns_shallow_copy sampleStore "all" "" H))).
Defined.

(** C7 as stated fails twice.  A list returned before [toggleTodo] shows
    the flipped record afterwards; and after a caller empties a returned
    list, the same query is answered from the cache with that emptied
    list while the collection still holds the record. *)
Lemma returned_list_follows_mutations :
  let st0 := run init [OpCreate "a" "" "t1"] in
  let r := getTodos "all" "" st0 in
  let st2 := (toggleTodo 1%N r.2).2 in
  let st3 := callerWrites r.1 [] r.2 in
  completed <$> view r.2 r.1 = [false] ∧
  completed <$> view st2 r.1 = [true] ∧
  view (getTodos "all" "" st3).2 (getTodos "all" "" st3).1 = [] ∧
  length (records st3) = 1.
Proof. cbv zeta. repeat split; reflexivity. Qed.

(** ** The size bound and the eviction order of the cache *)

Lemma lastn_short {A : Type} n (l : list A) : length l ≤ n → lastn n l = l.
Proof. unfold lastn. intros H. by replace (length l - n) with 0 by lia. Qed.

Lemma lastn_app_full {A : Type} n (l : list A) x :
  length l = n → 0 < n → lastn n (l ++ [x]) = tail l ++ [x].
Proof.
  unfold lastn. intros H Hn. rewrite length_app. simpl.
  replace (length l + 1 - n) with 1 by lia.
  destruct l as [|y l]; [simpl in H; lia|]. done.
Qed.

Lemma lastn_lastn_app {A : Type} n (l r : list A) :
  lastn n (lastn n l ++ r) = lastn n (l ++ r).
Proof.
  unfold lastn. rewrite !length_app, length_drop.
  destruct (decide (length l ≤ n)) as [H|H].
  - replace (length l - n) with 0 by lia. by rewrite Nat.sub_0_r.
  - set (d := length l - n).
    replace (l ++ r) with (take d l ++ (drop d l ++ r))
      by (by rewrite app_assoc, take_drop).
    rewrite (drop_app_ge (take d l)) by (rewrite length_take; lia).
    rewrite length_take. f_equal. lia.
Qed.

Lemma lastn_app_long {A : Type} n (l r : list A) :
  n ≤ length r → lastn n (l ++ r) = lastn n r.
Proof.
  unfold lastn. intros H. rewrite length_app, drop_app_ge by lia.
  f_equal. lia.
Qed.

(** One uncached query: the key goes to the end, after the first key has
    gone if the cache was full. *)
Lemma getTodos_miss_keys status q st :
  JsMap.get (getCacheKey status q) (queryCache st) = None →
  JsMap.size (queryCache st) ≤ CACHE_SIZE_LIMIT →
  JsMap.keys (queryCache (getTodos status q st).2)
  = lastn CACHE_SIZE_LIMIT (JsMap.keys (queryCache st) ++ [getCacheKey status q]).
Proof.
  intros E Hs. rewrite (getTodos_miss _ _ _ E). simpl.
  rewrite keys_set_absent by by apply evictIfFull_get.
  assert (Hk : length (JsMap.keys (queryCache st)) = JsMap.size (queryCache st)).
  { unfold JsMap.keys, JsMap.size. by rewrite length_fmap. }
  destruct (decide (JsMap.size (queryCache st) = CACHE_SIZE_LIMIT)) as [Hfull|Hnot].
  - rewrite evictIfFull_full by lia. rewrite keys_tail.
    rewrite lastn_app_full; [done | lia | unfold CACHE_SIZE_LIMIT; lia].
  - rewrite evictIfFull_below by lia.
    rewrite lastn_short; [done|]. rewrite length_app. simpl. lia.
Qed.

Lemma getTodos_size status q st :
  JsMap.size (queryCache st) ≤ CACHE_SIZE_LIMIT →
  JsMap.size (queryCache (getTodos status q st).2) ≤ CACHE_SIZE_LIMIT.
Proof.
  intros Hs.
  destruct (JsMap.get (getCacheKey status q) (queryCache st)) as [a|] eqn:E.
  - by rewrite (getTodos_hit _ _ _ _ E).
  - rewrite (getTodos_miss _ _ _ E). simpl.
    pose proof (evictIfFull_size _ Hs).
    pose proof (JsMap_size_set (getCacheKey status q) (length (arrs st))
                  (evictIfFull (queryCache st))).
    unfold JsMap.size, CACHE_SIZE_LIMIT in *. lia.
Qed.

Global Instance keyOf_inj : Inj (=) (=) keyOf.
Proof.
  intros [s q] [s' q'] H. unfold keyOf in H. simpl in H.
  by apply getCacheKey_inj in H as [-> ->].
Qed.

(** Queries on filters that are new to the cache and pairwise distinct
    leave the last [CACHE_SIZE_LIMIT] keys, in the order of arrival. *)
Lemma runQueries_keys st fs :
  JsMap.size (queryCache st) ≤ CACHE_SIZE_LIMIT →
  NoDup (keyOf <$> fs) →
  (∀ k, k ∈ keyOf <$> fs → k ∉ JsMap.keys (queryCache st)) →
  JsMap.keys (queryCache (runQueries st fs))
  = lastn CACHE_SIZE_LIMIT (JsMap.keys (queryCache st) ++ (keyOf <$> fs)).
Proof.
  revert st. induction fs as [|f fs IH]; intros st Hs Hn Hnew.
  - simpl. rewrite app_nil_r. rewrite lastn_short; [done|].
    unfold JsMap.keys, JsMap.size in *. by rewrite length_fmap.
  - rewrite fmap_cons in Hn, Hnew. apply NoDup_cons in Hn as [Hf Hn].
    assert (E : JsMap.get (keyOf f) (queryCache st) = None).
    { apply JsMap_get_None_keys, Hnew. left. }
    change (runQueries st (f :: fs))
      with (runQueries (getTodos f.1 f.2 st).2 fs).
    pose proof (getTodos_miss_keys f.1 f.2 st E Hs) as Hk.
    fold (keyOf f) in Hk.
    rewrite IH.
    + rewrite Hk, lastn_lastn_app, <- app_assoc. by rewrite fmap_cons.
    + by apply getTodos_size.
    + done.
    + intros k Hk' Hin. rewrite Hk in Hin. unfold lastn in Hin.
      apply (sublist_subseteq _ _ (sublist_drop _ _)) in Hin.
      apply elem_of_app in Hin as [Hin|Hin].
      * apply (Hnew k); [by right | done].
      * apply list_elem_of_singleton in Hin as ->. done.
Qed.

(** C9: in every reachable state the cache holds at most
    [CACHE_SIZE_LIMIT] = 50 entries, under distinct keys; an uncached query arriving at a full
    cache drops the first entry of the insertion order and appends its
    own; a cached query changes neither the entries nor their order; and
    after more than 50 queries on pairwise distinct filters that were not
    cached, the cache holds the keys of the last 50 of them, in order, and
    the first of them is no longer cached. *)
Theorem queryCache_bounded_fifo :
  (∀ st, reachable st →
         JsMap.size (queryCache st) ≤ CACHE_SIZE_LIMIT ∧
         NoDup (JsMap.keys (queryCache st))) ∧
  CACHE_SIZE_LIMIT = 50 ∧
  (∀ st status q,
     JsMap.has (getCacheKey status q) (queryCache st) = false →
     JsMap.size (queryCache st) = CACHE_SIZE_LIMIT →
     queryCache (getTodos status q st).2
     = tail (queryCache st) ++ [(getCacheKey status q, (getTodos status q st).1)]) ∧
  (∀ st status q,
     JsMap.has (getCacheKey status q) (queryCache st) = true →
     queryCache (getTodos status q st).2 = queryCache st) ∧
  (∀ st f fs,
     JsMap.size (queryCache st) ≤ CACHE_SIZE_LIMIT →
     NoDup (f :: fs) →
     (∀ g, g ∈ f :: fs → JsMap.has (keyOf g) (queryCache st) = false) →
     CACHE_SIZE_LIMIT ≤ length fs →
     let st' := runQueries st (f :: fs) in
     JsMap.keys (queryCache st') = lastn CACHE_SIZE_LIMIT (keyOf <$> f :: fs) ∧
     JsMap.has (keyOf f) (queryCache st') = false).
Proof.
  split.
  { intros st Hr. pose proof (reachable_wf _ Hr) as Hwf.
    split; [apply (wf_size _ Hwf) | apply (wf_keys _ Hwf)]. }
  split; [done|]. split; [|split].
  - intros st status q Hmiss Hfull. unfold JsMap.has in Hmiss.
    destruct (JsMap.get _ _) eqn:E; [done|].
    rewrite (getTodos_miss _ _ _ E). simpl.
    rewrite evictIfFull_full by lia.
    apply JsMap_set_absent. by apply JsMap_get_tail.
  - intros st status q Hhit. unfold JsMap.has in Hhit.
    destruct (JsMap.get _ _) eqn:E; [|done].
    by rewrite (getTodos_hit _ _ _ _ E).
  - intros st f fs Hsize Hn Hnew Hlen. cbv zeta.
    pose proof (NoDup_fmap_2 keyOf _ Hn) as Hnk.
    assert (Hkeys : JsMap.keys (queryCache (runQueries st (f :: fs)))
                    = lastn CACHE_SIZE_LIMIT (keyOf <$> f :: fs)).
    { rewrite runQueries_keys; [|done|done|].
      - apply lastn_app_long. rewrite length_fmap. simpl. lia.
      - intros k [g [-> Hg]]%list_elem_of_fmap.
        specialize (Hnew g Hg). unfold JsMap.has in Hnew.
        destruct (JsMap.get (keyOf g) (queryCache st)) eqn:E; [done|].
        by apply JsMap_get_None_keys in E. }
    split; [done|]. unfold JsMap.has.
    destruct (JsMap.get _ _) eqn:E; [|done]. exfalso.
    assert (Hin : keyOf f ∈ JsMap.keys (queryCache (runQueries st (f :: fs)))).
    { destruct (decide (keyOf f ∈ JsMap.keys (queryCache (runQueries st (f :: fs)))))
        as [|Hnin]; [done|].
      apply JsMap_get_None_keys in Hnin. congruence. }
    assert (Hd : lastn CACHE_SIZE_LIMIT (keyOf <$> f :: fs)
                 = drop (length fs - CACHE_SIZE_LIMIT) (keyOf <$> fs)).
    { unfold lastn. rewrite fmap_cons. cbn [length]. rewrite length_fmap.
      replace (S (length fs) - CACHE_SIZE_LIMIT)
        with (S (length fs - CACHE_SIZE_LIMIT))
        by (unfold CACHE_SIZE_LIMIT in *; lia).
      done. }
    rewrite Hkeys, Hd in Hin.
    rewrite fmap_cons in Hnk. apply NoDup_cons in Hnk as [Hf _]. apply Hf.
    by apply (sublist_subseteq _ _ (sublist_drop _ _)) in Hin.
Qed.

Lemma queryCache_bounded_fifo_witness :
  JsMap.has (keyOf ("all", "A")) (queryCache (runQueries init sampleFilters))
  = false.
Proof.
  refine (proj2 (proj2 (proj2 (proj2 (proj2 queryCache_bounded_fifo)))
                   init ("all", "A") (tail sampleFilters) _ _ _ _)).
  - vm_compute. lia.
  - apply (bool_decide_unpack (NoDup (("all", "A") :: tail sampleFilters))).
    vm_compute. exact I.
  - intros g _. reflexivity.
  - vm_compute. lia.
Defined.

(** ** The scenario of the specification *)

Example scenario_create :
  let st := run init [OpCreate "Buy milk" "" "t1";
                      OpCreate "Pay bills" "utilities" "t2"] in
  records st
  = [mkTodo 1 "Buy milk" "" false "t1"; mkTodo 2 "Pay bills" "utilities" false "t2"].
Proof. reflexivity. Qed.

Example scenario_queries :
  let st := run init [OpCreate "Buy milk" "" "t1";
                      OpCreate "Pay bills" "utilities" "t2"] in
  let a := getTodos "active" "" st in
  let st1 := (toggleTodo 1%N a.2).2 in
  let c := getTodos "completed" "" st1 in
  let b := getTodos "all" "bills" c.2 in
  let st2 := (deleteTodo 2%N b.2).2 in
  let d := getTodos "all" "" st2 in
  id <$> view a.2 a.1 = [1; 2]%N ∧
  id <$> view c.2 c.1 = [1]%N ∧
  id <$> view b.2 b.1 = [2]%N ∧
  id <$> view d.2 d.1 = [1]%N.
Proof. cbv zeta. repeat split; reflexivity. Qed.

Example scenario_blank_title :
  (createTodo "   " "" "t" init).1 = Throw "Title is required".
Proof. reflexivity. Qed.

Example stringify_sample :
  String.length (getCacheKey "all" "") = 23 ∧
  JsString.trim "  Pay bills " = "Pay bills" ∧
  JsString.toLowerCase "Pay BILLS" = "pay bills" ∧
  JsString.includes "pay bills" "bill" = true.
Proof. repeat split; reflexivity. Qed.

(** * Further properties of the store *)

(** ** The collection as a list *)

Lemma findIndexFrom_findIdx st id0 k arr :
  findIndexFrom st id0 k arr = (λ i, k + i) <$> findIdx id0 (getObj st <$> arr).
Proof.
  revert k. induction arr as [|l arr IH]; intros k; simpl; [done|].
  destruct (id (getObj st l) =? id0)%N; simpl.
  - by rewrite Nat.add_0_r.
  - rewrite IH. destruct (findIdx id0 _); simpl; [|done].
    f_equal. lia.
Qed.

Lemma findIndex_findIdx st id0 : findIndex st id0 = findIdx id0 (records st).
Proof.
  unfold findIndex. rewrite findIndexFrom_findIdx.
  unfold records, view. by destruct (findIdx _ _).
Qed.

Lemma findIdx_Some id0 rs i :
  findIdx id0 rs = Some i →
  i < length rs ∧ id (rs !!! i) = id0 ∧
  ∀ j, j < i → id (rs !!! j) ≠ id0.
Proof.
  revert i. induction rs as [|t rs IH]; intros i; simpl; [done|].
  destruct (id t =? id0)%N eqn:E.
  - intros [= <-]. apply N.eqb_eq in E. repeat split; [lia | done | lia].
  - apply N.eqb_neq in E. destruct (findIdx id0 rs) as [k|]; simpl; [|done].
    intros [= <-]. destruct (IH k eq_refl) as (Hk & Hid & Hfirst).
    repeat split; [lia | done |]. intros [|j] Hj; simpl; [done|].
    apply Hfirst. lia.
Qed.

Lemma findIdx_None id0 rs :
  findIdx id0 rs = None ↔ Forall (λ todo, id todo ≠ id0) rs.
Proof.
  induction rs as [|t rs IH]; simpl; [split; [constructor | done]|].
  rewrite Forall_cons. destruct (id t =? id0)%N eqn:E.
  - apply N.eqb_eq in E. split; [done | intros [? _]; done].
  - apply N.eqb_neq in E. rewrite <- IH.
    destruct (findIdx id0 rs); simpl; split; try done; by intros [_ ?].
Qed.

(** [findIdx] only looks at the identifiers. *)
Lemma findIdx_ids id0 rs rs' :
  id <$> rs' = id <$> rs → findIdx id0 rs' = findIdx id0 rs.
Proof.
  revert rs'. induction rs as [|t rs IH]; intros [|t' rs'] H; try done.
  rewrite !fmap_cons in H. injection H as Ht H. simpl.
  by rewrite Ht, (IH _ H).
Qed.

Lemma fmap_flipAt (arr : list objref) (os : list Todo) i :
  NoDup arr → i < length arr → Forall (λ l, l < length os) arr →
  (λ l, flipAt (arr !!! i) os !!! l) <$> arr
  = <[i := flipCompleted (os !!! (arr !!! i))]> ((λ l, os !!! l) <$> arr).
Proof.
  intros Hn Hi Hr. apply list_eq. intros j.
  pose proof (list_lookup_lookup_total_lt arr i Hi) as Hl.
  assert (Hlt : arr !!! i < length os).
  { rewrite Forall_forall in Hr. apply Hr. by eapply list_elem_of_lookup_2. }
  rewrite list_lookup_fmap. destruct (decide (j = i)) as [->|Hne].
  - rewrite list_lookup_insert_eq by by rewrite length_fmap.
    rewrite Hl. simpl. rewrite flipAt_lookup by done. by rewrite decide_True.
  - rewrite list_lookup_insert_ne by done. rewrite list_lookup_fmap.
    destruct (arr !! j) as [l'|] eqn:E; simpl; [|done].
    rewrite flipAt_lookup by done. rewrite decide_False; [done|].
    intros ->. apply Hne. by eapply NoDup_lookup.
Qed.

Lemma toggleTodo_records id0 st i :
  wf st → findIndex st id0 = Some i →
  records (toggleTodo id0 st).2 = <[i := flipCompleted (records st !!! i)]> (records st) ∧
  (toggleTodo id0 st).1 = Return (Some (getArr st (todos st) !!! i)) ∧
  getObj (toggleTodo id0 st).2 (getArr st (todos st) !!! i)
  = flipCompleted (records st !!! i).
Proof.
  intros Hwf E. pose proof (findIndex_Some _ _ _ E) as [Hi _].
  unfold toggleTodo. rewrite E. unfold clearCache. simpl.
  rewrite records_lookup_total by done. split; [|split; [done|]].
  - unfold records, view, getArr, getObj. simpl.
    apply fmap_flipAt; [apply (wf_nodup _ Hwf) | done | apply (wf_refs _ Hwf)].
  - unfold getObj. simpl. rewrite flipAt_lookup; [by rewrite decide_True|].
    pose proof (wf_refs _ Hwf) as Hr. rewrite Forall_forall in Hr. apply Hr.
    eapply list_elem_of_lookup_2. by apply list_lookup_lookup_total_lt.
Qed.

Lemma deleteTodo_records id0 st i :
  wf st → findIndex st id0 = Some i →
  records (deleteTodo id0 st).2 = base.delete i (records st) ∧
  (deleteTodo id0 st).1 = Return (Some (getArr st (todos st) !!! i)) ∧
  getObj (deleteTodo id0 st).2 (getArr st (todos st) !!! i) = records st !!! i.
Proof.
  intros Hwf E. pose proof (findIndex_Some _ _ _ E) as [Hi _].
  unfold deleteTodo. rewrite E. unfold clearCache. simpl.
  rewrite records_lookup_total by done. split; [|done].
  unfold records, view, getArr. simpl.
  rewrite list_lookup_total_insert_eq by apply (wf_todos _ Hwf).
  apply list_fmap_delete.
Qed.

Lemma clearAllTodos_records st : records (clearAllTodos st).2 = [].
Proof.
  unfold records, view, getArr. simpl. by rewrite list_lookup_total_middle.
Qed.

(** One call, read on the list of records. *)
Lemma step_abs st o : wf st → contents (step st o) = absStep (contents st) o.
Proof.
  intros Hwf. unfold contents. destruct o; unfold step, absStep.
  - rewrite getTodos_records by apply (wf_todos _ Hwf).
    by rewrite getTodos_idCounter.
  - destruct (JsString.trim title0) eqn:E.
    + rewrite createTodo_throw by done. done.
    + assert (Hne : JsString.trim title0 ≠ "") by by rewrite E.
      rewrite createTodo_records by done.
      rewrite createTodo_return by done. simpl. by rewrite E.
  - rewrite <- findIndex_findIdx.
    destruct (findIndex st id0) as [i|] eqn:E.
    + rewrite (updateTodo_found _ _ _ _ E). destruct (titleBlank updates); [done|].
      pose proof (findIndex_Some _ _ _ E) as [Hi _].
      by rewrite (proj1 (storeUpdated_records i _ st Hwf Hi)).
    + unfold updateTodo. by rewrite E.
  - rewrite <- findIndex_findIdx.
    destruct (findIndex st id0) as [i|] eqn:E.
    + rewrite (proj1 (toggleTodo_records _ _ _ Hwf E)).
      unfold toggleTodo. by rewrite E.
    + unfold toggleTodo. by rewrite E.
  - rewrite <- findIndex_findIdx.
    destruct (findIndex st id0) as [i|] eqn:E.
    + rewrite (proj1 (deleteTodo_records _ _ _ Hwf E)).
      unfold deleteTodo. by rewrite E.
    + unfold deleteTodo. by rewrite E.
  - rewrite bulkToggleTodos_records by done. f_equal.
    rewrite bulkToggleTodos_unfold. cbv zeta. by destruct (0 <? _).
  - destruct (bulkDeleteTodos_spec ids st) as (_ & Hrec & _).
    rewrite Hrec. f_equal. unfold bulkDeleteTodos. simpl. by destruct (0 <? _).
  - done.
  - by rewrite clearAllTodos_records.
Qed.

Lemma wf_run st ops : wf st → wf (run st ops).
Proof.
  revert st. induction ops as [|o ops IH]; intros st H; [done|].
  simpl. apply IH. by apply wf_step.
Qed.

Lemma run_abs st ops : wf st → contents (run st ops) = absRun (contents st) ops.
Proof.
  revert st. induction ops as [|o ops IH]; intros st Hwf; [done|].
  simpl. rewrite IH by by apply wf_step. by rewrite step_abs.
Qed.

(** X1: along any calls from a reachable state, the records of the
    collection and the counter are those the list-level reading of the
    calls gives: they depend on the collection and counter before and on
    the calls, not on the cache or on how objects are shared. *)
Theorem run_contents st ops :
  reachable st → contents (run st ops) = absRun (contents st) ops.
Proof. intros Hr. by apply run_abs, reachable_wf. Qed.

Lemma run_contents_witness :
  contents (run init sampleOps) = absRun (contents init) sampleOps.
Proof. exact (run_contents init sampleOps reachable_init). Defined.

(** ** Identifiers of the collection *)

Lemma fmap_insert_same {A B : Type} `{!Inhabited A} (f : A → B) (l : list A) i x :
  f x = f (l !!! i) → f <$> <[i := x]> l = f <$> l.
Proof.
  intros Hx. rewrite list_fmap_insert.
  destruct (decide (i < length l)) as [Hi|Hi].
  - apply list_insert_id. rewrite list_lookup_fmap.
    rewrite (list_lookup_lookup_total_lt l i Hi). simpl. by rewrite Hx.
  - apply list_insert_ge. rewrite length_fmap. lia.
Qed.

Lemma Forall_insert_total {A : Type} `{!Inhabited A} (P : A → Prop) (l : list A) i x :
  Forall P l → (i < length l → P x) → Forall P (<[i := x]> l).
Proof.
  intros Hl Hx. destruct (decide (i < length l)) as [Hi|Hi].
  - apply Forall_insert; auto.
  - by rewrite list_insert_ge by lia.
Qed.

Lemma absStep_idsOk s o : idsOk s → idsOk (absStep s o).
Proof.
  destruct s as [rs c]. unfold idsOk. simpl. intros (Hn & Hb & Hc).
  destruct o; simpl; try done.
  - destruct (JsString.isEmpty _); simpl; [done|].
    rewrite fmap_app. simpl. split; [|split; [|lia]].
    + apply NoDup_app. split; [done|]. split; [|apply NoDup_singleton].
      intros x [t [-> Ht]]%list_elem_of_fmap Hx%list_elem_of_singleton.
      rewrite Forall_forall in Hb. specialize (Hb _ Ht). simpl in Hb. lia.
    + apply Forall_app. split.
      * eapply Forall_impl; [exact Hb|]. intros t Ht. simpl in *. lia.
      * repeat constructor; simpl; lia.
  - destruct (findIdx id0 rs) as [i|] eqn:E; [|done].
    destruct (titleBlank updates); [done|]. simpl.
    apply findIdx_Some in E as (Hi & _).
    rewrite fmap_insert_same by done. split; [done|]. split; [|done].
    apply Forall_insert; [done|]. simpl.
    rewrite Forall_forall in Hb. apply (Hb (rs !!! i)).
    eapply list_elem_of_lookup_2. by apply list_lookup_lookup_total_lt.
  - destruct (findIdx id0 rs) as [i|] eqn:E; [|done]. simpl.
    apply findIdx_Some in E as (Hi & _).
    rewrite fmap_insert_same by done. split; [done|]. split; [|done].
    apply Forall_insert; [done|]. simpl.
    rewrite Forall_forall in Hb. apply (Hb (rs !!! i)).
    eapply list_elem_of_lookup_2. by apply list_lookup_lookup_total_lt.
  - destruct (findIdx id0 rs) as [i|] eqn:E; [|done]. simpl.
    rewrite list_fmap_delete. split; [|split; [|done]].
    + eapply sublist_NoDup; [exact Hn | apply sublist_delete].
    + by apply Forall_delete.
  - assert (Hid : id <$> (toggleIfIn ids <$> rs) = id <$> rs).
    { rewrite <- list_fmap_compose. apply list_fmap_ext. intros _ t _.
      simpl. unfold toggleIfIn. by destruct (decide _). }
    rewrite Hid. split; [done|]. split; [|done].
    apply Forall_fmap. eapply Forall_impl; [exact Hb|]. intros t Ht.
    simpl. unfold toggleIfIn. by destruct (decide _).
  - split; [|split; [|done]].
    + eapply sublist_NoDup; [exact Hn|]. apply fmap_sublist, sublist_filter.
    + apply Forall_forall. intros t [_ Ht]%list_elem_of_filter.
      rewrite Forall_forall in Hb. by apply Hb.
  - split; [constructor|]. split; [constructor | lia].
Qed.

Lemma reachable_idsOk st : reachable st → idsOk (contents st).
Proof.
  induction 1 as [|st o Hr IH].
  - unfold idsOk, contents. simpl. split; [constructor|].
    split; [constructor | lia].
  - rewrite step_abs by by apply reachable_wf. by apply absStep_idsOk.
Qed.

Lemma reachable_ids_nodup st : reachable st → NoDup (id <$> records st).
Proof. intros Hr. by destruct (reachable_idsOk _ Hr) as (Hn & _). Qed.

(** X2: in every reachable state the records of the collection have
    pairwise distinct identifiers, each at least 1 and below the counter;
    so an id names at most one record, and a query by id finds the only
    one. *)
Theorem reachable_ids_unique st :
  reachable st →
  NoDup (id <$> records st) ∧
  Forall (λ todo, (1 ≤ id todo < idCounter st)%N) (records st) ∧
  ∀ i j, i < length (records st) → j < length (records st) →
         id (records st !!! i) = id (records st !!! j) → i = j.
Proof.
  intros Hr. destruct (reachable_idsOk _ Hr) as (Hn & Hb & _).
  unfold contents in *. simpl in *. split; [done|]. split; [done|].
  intros i j Hi Hj Hid.
  eapply (NoDup_lookup (id <$> records st) i j (id (records st !!! i))); [done|..];
    rewrite list_lookup_fmap.
  - by rewrite (list_lookup_lookup_total_lt _ _ Hi).
  - rewrite (list_lookup_lookup_total_lt _ _ Hj). simpl. by rewrite Hid.
Qed.

Lemma reachable_ids_unique_witness :
  NoDup (id <$> records sampleStore).
Proof.
  exact (proj1 (reachable_ids_unique sampleStore
                  (reachable_run init sampleOps reachable_init))).
Defined.

(** ** Stored titles *)

Section trim_lemmas.
Import JsString.

Lemma trimStart_idem s : trimStart (trimStart s) = trimStart s.
Proof.
  induction s as [|c s IH]; [done|]. simpl.
  destruct (isWhiteSpace c) eqn:E; [exact IH|]. simpl. by rewrite E.
Qed.

Lemma trimEnd_idem s : trimEnd (trimEnd s) = trimEnd s.
Proof.
  induction s as [|c s IH]; [done|]. simpl.
  destruct (isWhiteSpace c && isEmpty (trimEnd s)) eqn:E; [done|].
  simpl. by rewrite IH, E.
Qed.

Lemma trimStart_trimEnd s : trimStart (trimEnd s) = trimEnd (trimStart s).
Proof.
  induction s as [|c s IH]; [done|]. simpl.
  destruct (isWhiteSpace c) eqn:Ec; simpl.
  - destruct (isEmpty (trimEnd s)) eqn:Ee; simpl.
    + symmetry. apply isEmpty_true.
      rewrite trimEnd_allWhiteSpace, allWhiteSpace_trimStart.
      by rewrite <- trimEnd_allWhiteSpace.
    + by rewrite Ec.
  - by rewrite Ec.
Qed.

Lemma trim_idempotent s : trim (trim s) = trim s.
Proof.
  unfold trim. by rewrite trimStart_trimEnd, trimStart_idem, trimEnd_idem.
Qed.

Lemma length_trimStart s : String.length (trimStart s) ≤ String.length s.
Proof.
  induction s as [|c s IH]; [done|]. simpl.
  destruct (isWhiteSpace c); simpl; lia.
Qed.

Lemma length_trimEnd s : String.length (trimEnd s) ≤ String.length s.
Proof.
  induction s as [|c s IH]; [done|]. simpl.
  destruct (isWhiteSpace c && isEmpty (trimEnd s)); simpl; lia.
Qed.

Lemma length_trim s : String.length (trim s) ≤ String.length s.
Proof.
  unfold trim. etrans; [apply length_trimEnd | apply length_trimStart].
Qed.

Lemma trim_empty : trim "" = "".
Proof. done. Qed.
End trim_lemmas.

Lemma titleOk_trim t : JsString.trim t ≠ "" → titleOk (mkTodo 0 (JsString.trim t) "" false "").
Proof. intros H. split; [done | apply trim_idempotent]. Qed.

Lemma absStep_titleOk s o : Forall titleOk s.1 → Forall titleOk (absStep s o).1.
Proof.
  destruct s as [rs c]. simpl. intros H. destruct o; simpl; try done.
  - destruct (JsString.trim title0) eqn:E; simpl; [done|].
    apply Forall_app. split; [done|]. repeat constructor; simpl; [done|].
    rewrite <- E. apply trim_idempotent.
  - destruct (findIdx id0 rs) as [i|] eqn:E; [|done].
    destruct (titleBlank updates) eqn:Eb; [done|]. simpl.
    apply findIdx_Some in E as (Hi & _).
    assert (Hold : titleOk (rs !!! i)).
    { rewrite Forall_forall in H. apply H.
      eapply list_elem_of_lookup_2. by apply list_lookup_lookup_total_lt. }
    apply Forall_insert; [done|]. unfold titleOk, titleBlank in *. simpl.
    destruct (u_title updates) as [t|]; [|done].
    split; [|apply trim_idempotent]. intros Ht. by rewrite Ht in Eb.
  - destruct (findIdx id0 rs) as [i|] eqn:E; [|done]. simpl.
    apply findIdx_Some in E as (Hi & _).
    apply Forall_insert; [done|].
    rewrite Forall_forall in H. apply (H (rs !!! i)).
    eapply list_elem_of_lookup_2. by apply list_lookup_lookup_total_lt.
  - destruct (findIdx id0 rs) as [i|]; [|done]. simpl. by apply Forall_delete.
  - apply Forall_fmap. eapply Forall_impl; [exact H|]. intros t Ht.
    simpl. unfold toggleIfIn. by destruct (decide _).
  - apply Forall_forall. intros t [_ Ht]%list_elem_of_filter.
    rewrite Forall_forall in H. by apply H.
Qed.

(** X3: in every reachable state each record of the collection has a title
    that is not empty and carries no white space at either end, whatever
    titles [createTodo] and [updateTodo] were given. *)
Theorem reachable_titles_trimmed st :
  reachable st →
  Forall (λ todo, title todo ≠ "" ∧ JsString.trim (title todo) = title todo)
         (records st).
Proof.
  induction 1 as [|st o Hr IH]; [constructor|].
  change (records (step st o)) with (contents (step st o)).1.
  rewrite step_abs by by apply reachable_wf.
  by apply (absStep_titleOk (contents st) o).
Qed.

Lemma reachable_titles_trimmed_witness :
  Forall (λ todo, title todo ≠ "" ∧ JsString.trim (title todo) = title todo)
         (records sampleStore).
Proof.
  exact (reachable_titles_trimmed sampleStore
           (reachable_run init sampleOps reachable_init)).
Defined.

(** ** Statistics *)

Lemma getTodoStats_fold rs t a c :
  fold_left
    (λ stats todo,
       if completed todo
       then mkStats (total stats) (active stats) (S (completedCount stats))
       else mkStats (total stats) (S (active stats)) (completedCount stats))
    rs (mkStats t a c)
  = mkStats t (a + countCompleted false rs) (c + countCompleted true rs).
Proof.
  unfold countCompleted. revert a c.
  induction rs as [|r rs IH]; intros a c; simpl.
  - by rewrite !Nat.add_0_r.
  - rewrite !filter_cons. destruct (completed r) eqn:E; rewrite IH.
    + rewrite decide_False by done. rewrite decide_True by done. simpl.
      f_equal. lia.
    + rewrite decide_True by done. rewrite decide_False by done. simpl.
      f_equal. lia.
Qed.

Lemma countCompleted_total rs :
  countCompleted false rs + countCompleted true rs = length rs.
Proof.
  unfold countCompleted. induction rs as [|r rs IH]; [done|].
  rewrite !filter_cons. destruct (completed r) eqn:E.
  - rewrite decide_False by done. rewrite decide_True by done. simpl. lia.
  - rewrite decide_True by done. rewrite decide_False by done. simpl. lia.
Qed.

(** X4: [getTodoStats] counts the collection: [total] is the number of
    records, [completed] the number of completed ones, [active] the number
    of the others, and [total = active + completed]. *)
Theorem getTodoStats_counts st :
  total (getTodoStats st) = length (records st) ∧
  completedCount (getTodoStats st) = countCompleted true (records st) ∧
  active (getTodoStats st) = countCompleted false (records st) ∧
  total (getTodoStats st)
  = active (getTodoStats st) + completedCount (getTodoStats st).
Proof.
  unfold getTodoStats. rewrite getTodoStats_fold. simpl.
  pose proof (countCompleted_total (records st)) as Hsum.
  assert (Hlen : length (records st) = length (getArr st (todos st))).
  { unfold records, view. by rewrite length_fmap. }
  repeat split; lia.
Qed.

(** ** [toggleTodo] and [deleteTodo] on a record that exists *)

Lemma flipCompleted_involutive todo : flipCompleted (flipCompleted todo) = todo.
Proof. destruct todo as [i t d c ca]. unfold flipCompleted. simpl. by rewrite negb_involutive. Qed.

(** X5: [toggleTodo] on an id the collection has negates [completed] on
    the first (in reachable states: the only) record with that id and
    keeps its id, title, description and creation time; it returns that
    record, changes no other record and no position, and empties the
    cache; toggling the same id again gives back the collection as it
    was.  On an id the collection does not have it returns null and
    changes nothing. *)
Theorem toggleTodo_spec st id0 :
  reachable st →
  let r := toggleTodo id0 st in
  match findIdx id0 (records st) with
  | None => r = (Return None, st)
  | Some i =>
      let old := records st !!! i in
      let new := {| id := id old; title := title old;
                    description := description old;
                    completed := negb (completed old);
                    createdAt := createdAt old |} in
      id old = id0 ∧
      ∃ l, r.1 = Return (Some l) ∧
           getObj r.2 l = new ∧
           records r.2 = <[i := new]> (records st) ∧
           (∀ j, j ≠ i → records r.2 !! j = records st !! j) ∧
           length (records r.2) = length (records st) ∧
           queryCache r.2 = [] ∧
           records (toggleTodo id0 r.2).2 = records st
  end.
Proof.
  intros Hr. pose proof (reachable_wf _ Hr) as Hwf. cbv zeta.
  rewrite <- findIndex_findIdx.
  destruct (findIndex st id0) as [i|] eqn:E.
  - change {| id := _; title := _; description := _; completed := _;
              createdAt := _ |} with (flipCompleted (records st !!! i)).
    destruct (toggleTodo_records _ _ _ Hwf E) as (Hrec & Hret & Hobj).
    pose proof E as E'. rewrite findIndex_findIdx in E'.
    apply findIdx_Some in E' as (Hi & Hid & _).
    split; [done|]. eexists. split; [exact Hret|]. split; [done|].
    split; [done|].
    split. { intros j Hj. rewrite Hrec. by apply list_lookup_insert_ne. }
    split. { by rewrite Hrec, length_insert. }
    split. { unfold toggleTodo. by rewrite E. }
    assert (Hwf' : wf (toggleTodo id0 st).2) by by apply wf_toggleTodo.
    assert (E2 : findIndex (toggleTodo id0 st).2 id0 = Some i).
    { rewrite findIndex_findIdx, Hrec.
      rewrite (findIdx_ids id0 (records st)); [by rewrite <- findIndex_findIdx|].
      by apply fmap_insert_same. }
    rewrite (proj1 (toggleTodo_records _ _ _ Hwf' E2)), Hrec.
    rewrite list_lookup_total_insert_eq by done.
    rewrite flipCompleted_involutive, list_insert_insert_eq.
    apply list_insert_id. by apply list_lookup_lookup_total_lt.
  - unfold toggleTodo. by rewrite E.
Qed.

Lemma toggleTodo_spec_witness :
  completed <$> records sampleStore = [true; false] ∧
  completed <$> records (toggleTodo 2%N sampleStore).2 = [true; true].
Proof.
  split; [reflexivity|].
  destruct (toggleTodo_spec sampleStore 2%N
              (reachable_run init sampleOps reachable_init))
    as (_ & l & _ & _ & Hrec & _).
  exact (eq_trans (f_equal (fmap completed) Hrec) eq_refl).
Defined.

Lemma NoDup_delete_not_elem_of {A : Type} (l : list A) i x :
  NoDup l → l !! i = Some x → x ∉ base.delete i l.
Proof.
  revert i. induction l as [|y l IH]; intros [|i] Hn Hi; simpl in *; try done.
  - injection Hi as ->. by apply NoDup_cons in Hn as [? _].
  - apply NoDup_cons in Hn as [Hy Hn]. apply not_elem_of_cons. split.
    + intros ->. apply Hy. by eapply list_elem_of_lookup_2.
    + by apply IH.
Qed.

(** X6: [deleteTodo] on an id the collection has removes the record with
    that id and returns it; the other records keep their order; in a
    reachable state no record with the id is left, so deleting the id
    again returns null; the cache is emptied. *)
Theorem deleteTodo_spec st id0 i :
  reachable st →
  findIdx id0 (records st) = Some i →
  let r := deleteTodo id0 st in
  let todo := records st !!! i in
  id todo = id0 ∧
  ∃ l, r.1 = Return (Some l) ∧
       getObj r.2 l = todo ∧
       records r.2 = base.delete i (records st) ∧
       S (length (records r.2)) = length (records st) ∧
       Forall (λ other, id other ≠ id0) (records r.2) ∧
       queryCache r.2 = [] ∧
       deleteTodo id0 r.2 = (Return None, r.2).
Proof.
  intros Hr E. pose proof (reachable_wf _ Hr) as Hwf. cbv zeta.
  pose proof E as E'. rewrite <- findIndex_findIdx in E'.
  destruct (deleteTodo_records _ _ _ Hwf E') as (Hrec & Hret & Hobj).
  apply findIdx_Some in E as (Hi & Hid & _).
  split; [done|]. eexists. split; [exact Hret|]. split; [done|].
  split; [done|].
  assert (Hgone : Forall (λ other, id other ≠ id0) (records (deleteTodo id0 st).2)).
  { rewrite Hrec. apply Forall_forall. intros t Ht Heq.
    pose proof (reachable_ids_nodup _ Hr) as Hn.
    apply (NoDup_delete_not_elem_of (id <$> records st) i id0 Hn).
    - rewrite list_lookup_fmap, (list_lookup_lookup_total_lt _ _ Hi). simpl.
      by rewrite Hid.
    - rewrite <- list_fmap_delete, <- Heq. by apply list_elem_of_fmap_2. }
  split. { rewrite Hrec, length_delete by (by apply lookup_lt_is_Some_2). lia. }
  split; [done|]. split. { unfold deleteTodo. by rewrite E'. }
  by apply deleteTodo_missing.
Qed.

Lemma deleteTodo_spec_witness :
  ∃ l, (deleteTodo 2%N sampleStore).1 = Return (Some l).
Proof.
  destruct (deleteTodo_spec sampleStore 2%N 1
              (reachable_run init sampleOps reachable_init) eq_refl)
    as (_ & l & H & _).
  exists l. exact H.
Defined.

(** ** [clearAllTodos] *)

(** X7: [clearAllTodos] returns the number of records the collection had
    and puts the store back to its start: after it, any calls leave the
    same records, with the same ids, as the same calls on a freshly
    loaded module. *)
Theorem clearAllTodos_resets st :
  reachable st →
  (clearAllTodos st).1 = Return (length (records st)) ∧
  ∀ ops, contents (run (clearAllTodos st).2 ops) = contents (run init ops).
Proof.
  intros Hr. pose proof (reachable_wf _ Hr) as Hwf. split.
  - unfold clearAllTodos, records, view. simpl. by rewrite length_fmap.
  - intros ops. rewrite !run_abs; [|apply wf_init|by apply wf_clearAllTodos].
    f_equal. unfold contents. by rewrite clearAllTodos_records.
Qed.

Lemma clearAllTodos_resets_witness :
  (clearAllTodos sampleStore).1 = Return (length (records sampleStore)).
Proof.
  exact (proj1 (clearAllTodos_resets sampleStore
                  (reachable_run init sampleOps reachable_init))).
Defined.

(** ** Cache keys and filters *)

(** X8: two filters have the same cache key exactly when they have the
    same status and the same text: quotes, backslashes and control
    characters in the text never make two filters collide. *)
Theorem getCacheKey_distinguishes status q status' q' :
  getCacheKey status q = getCacheKey status' q' ↔ status = status' ∧ q = q'.
Proof.
  split; [apply getCacheKey_inj | by intros [-> ->]].
Qed.

Lemma recompute_lower st status q q' :
  JsString.toLowerCase q = JsString.toLowerCase q' →
  recompute st status q = recompute st status q'.
Proof.
  intros H. unfold recompute, applyFilters.
  assert (He : JsString.isEmpty q = JsString.isEmpty q').
  { by rewrite <- (isEmpty_toLowerCase q), <- (isEmpty_toLowerCase q'), H. }
  by rewrite He, H.
Qed.

(** X9: the text filter ignores letter case in the query: in a reachable
    state two queries whose texts have the same lower-casing show the
    same records, although they are cached under different keys. *)
Theorem getTodos_case_insensitive st status q q' :
  reachable st →
  JsString.toLowerCase q = JsString.toLowerCase q' →
  let r := getTodos status q st in
  let r' := getTodos status q' st in
  view r.2 r.1 = view r'.2 r'.1.
Proof.
  intros Hr H. pose proof (reachable_wf _ Hr) as Hwf. cbv zeta.
  rewrite !getTodos_view by done. by apply recompute_lower.
Qed.

Lemma getTodos_case_insensitive_witness :
  view (getTodos "all" "Bills" sampleStore).2 (getTodos "all" "Bills" sampleStore).1
  = view (getTodos "all" "BILLS" sampleStore).2 (getTodos "all" "BILLS" sampleStore).1.
Proof.
  exact (getTodos_case_insensitive sampleStore "all" "Bills" "BILLS"
           (reachable_run init sampleOps reachable_init) eq_refl).
Defined.

Lemma recompute_other_status st status q :
  status ≠ "all" → status ≠ "completed" →
  recompute st status q = recompute st "active" q.
Proof.
  intros Ha Hc. unfold recompute, applyFilters, statusCallback.
  apply String.eqb_neq in Ha, Hc. by rewrite Ha, Hc.
Qed.

(** X10: [getTodos] treats every status other than "all" and "completed"
    as "active": in a reachable state such a query shows the records
    that are not completed (and match the text). *)
Theorem getTodos_other_status_is_active st status q :
  reachable st →
  status ≠ "all" → status ≠ "completed" →
  let r := getTodos status q st in
  view r.2 r.1 = recompute st "active" q ∧
  Forall (λ todo, completed todo = false) (view r.2 r.1).
Proof.
  intros Hr Ha Hc. pose proof (reachable_wf _ Hr) as Hwf. cbv zeta.
  rewrite getTodos_view by done. rewrite recompute_other_status by done.
  split; [done|]. apply Forall_forall. intros t Ht.
  assert (Hs : t ∈ filter (λ x, statusCallback "active" x) (records st)).
  { unfold recompute, applyFilters in Ht. simpl in Ht.
    destruct (negb (JsString.isEmpty q)); [|done].
    by apply list_elem_of_filter in Ht as [_ Ht]. }
  apply list_elem_of_filter in Hs as [Hs _]. unfold statusCallback in Hs.
  simpl in Hs. by destruct (completed t).
Qed.

Lemma getTodos_other_status_is_active_witness :
  view (getTodos "pending" "" sampleStore).2 (getTodos "pending" "" sampleStore).1
  = recompute sampleStore "active" "".
Proof.
  refine (proj1 (getTodos_other_status_is_active sampleStore "pending" ""
                   (reachable_run init sampleOps reachable_init) _ _));
    discriminate.
Defined.

Lemma filter_filter_swap {A : Type} (P Q : A → Prop)
  `{!∀ x, Decision (P x)} `{!∀ x, Decision (Q x)} (l : list A) :
  filter P (filter Q l) = filter Q (filter P l).
Proof.
  rewrite !list_filter_filter. apply list_filter_iff. intros x. tauto.
Qed.

(** X11: for one text, the "active" and the "completed" answers split the
    "all" answer: each record of the "all" answer is in exactly one of
    them, so the three lengths add up. *)
Theorem recompute_status_partition st q :
  recompute st "active" q ++ recompute st "completed" q ≡ₚ recompute st "all" q ∧
  length (recompute st "active" q) + length (recompute st "completed" q)
  = length (recompute st "all" q).
Proof.
  assert (H : recompute st "active" q ++ recompute st "completed" q
              ≡ₚ recompute st "all" q).
  { unfold recompute, applyFilters. simpl.
    set (P := λ x : Todo, Is_true (statusCallback "active" x)).
    assert (Hc : ∀ l : list Todo,
               filter (λ x, statusCallback "completed" x) l
               = filter (λ x, ¬ P x) l).
    { intros l. apply list_filter_iff. intros t. unfold P, statusCallback. simpl.
      destruct (completed t); simpl; split; auto. }
    destruct (negb (JsString.isEmpty q)).
    - rewrite Hc.
      rewrite (filter_filter_swap _ P), (filter_filter_swap _ (λ x, ¬ P x)).
      apply filter_app_complement.
    - rewrite Hc. apply filter_app_complement. }
  split; [done|]. by rewrite <- H, length_app.
Qed.

(** * The route handlers *)

(** ** Query parameters and the list request *)

Lemma length_substring0 n s :
  String.length (Js.substring0 n s) = Nat.min n (String.length s).
Proof.
  revert s. induction n as [|n IH]; intros [|c s]; simpl; try done.
  by rewrite IH.
Qed.

Lemma substring0_prefix n s : ∃ rest, s = Js.substring0 n s +:+ rest.
Proof.
  revert s. induction n as [|n IH]; intros s.
  - exists s. by destruct s.
  - destruct s as [|c s]; [by exists ""|]. destruct (IH s) as [rest Hrest].
    exists rest. exact (f_equal (String c) Hrest).
Qed.

Lemma validStatus_spec s :
  TodosRoute.validStatus s = true ↔ s ∈ ["all"; "active"; "completed"].
Proof.
  unfold TodosRoute.validStatus.
  rewrite !orb_true_iff, !String.eqb_eq, !elem_of_cons, elem_of_nil. tauto.
Qed.

(** X12: [validateQueryParams] answers with a status that is one of "all",
    "active", "completed" ("all" when the parameter is absent or empty),
    with a text of at most 100 code units that is the given text or its
    first 100 units, and with [includeStats] set exactly for the
    parameter value "true"; it throws exactly when a non-empty status
    outside the three is given. *)
Theorem validateQueryParams_spec ps :
  let given := TodosRoute.getOr (TodosRoute.p_q ps) "" in
  match TodosRoute.validateQueryParams ps with
  | Return (st, q, includeStats) =>
      st ∈ ["all"; "active"; "completed"] ∧
      st = TodosRoute.getOr (TodosRoute.p_status ps) "all" ∧
      String.length q ≤ 100 ∧
      (∃ rest, given = q +:+ rest) ∧
      (String.length given ≤ 100 → q = given) ∧
      (includeStats = true ↔ TodosRoute.p_includeStats ps = Some "true")
  | Throw msg =>
      msg = "Invalid status. Must be one of: all, active, completed" ∧
      ∃ s, TodosRoute.p_status ps = Some s ∧ s ≠ "" ∧
           s ∉ ["all"; "active"; "completed"]
  end.
Proof.
  cbv zeta. unfold TodosRoute.validateQueryParams.
  set (given := TodosRoute.getOr (TodosRoute.p_q ps) "").
  destruct (TodosRoute.validStatus _) eqn:Ev; cbn [negb].
  - apply validStatus_spec in Ev. split; [done|]. split; [done|].
    assert (Hinc : match TodosRoute.p_includeStats ps with
                   | Some s => (s =? "true")%string
                   | None => false
                   end = true ↔ TodosRoute.p_includeStats ps = Some "true").
    { destruct (TodosRoute.p_includeStats ps) as [s|]; [|done].
      rewrite String.eqb_eq. split; [by intros -> | by intros [= ->]]. }
    destruct (MAX_QUERY_LENGTH <? String.length given) eqn:El;
      unfold MAX_QUERY_LENGTH in *.
    + apply Nat.ltb_lt in El. rewrite length_substring0.
      split; [lia|]. split; [apply substring0_prefix|]. split; [lia | done].
    + apply Nat.ltb_ge in El. split; [done|]. split; [|done].
      exists "". clear. induction given as [|c g IH]; [done|].
      exact (f_equal (String c) IH).
  - split; [done|].
    assert (Hn : ¬ TodosRoute.getOr (TodosRoute.p_status ps) "all"
                   ∈ ["all"; "active"; "completed"]).
    { rewrite <- validStatus_spec. by rewrite Ev. }
    unfold TodosRoute.getOr in Hn.
    destruct (TodosRoute.p_status ps) as [s|].
    + destruct s as [|c s]; simpl in Hn.
      * exfalso. apply Hn. left.
      * by exists (String c s).
    + exfalso. apply Hn. left.
Qed.

Lemma getTodoStats_frame st st' :
  records st' = records st → getTodoStats st' = getTodoStats st.
Proof.
  intros H. unfold getTodoStats. rewrite H. do 2 f_equal.
  apply (f_equal length) in H. unfold records, view in H.
  by rewrite !length_fmap in H.
Qed.

(** X13: in a reachable state the list request answers 200 with the
    records the filter yields on the current collection (from the cache
    or not), their number as the count, the sanitised text and status,
    and the statistics of the current collection when asked for; an
    invalid status is answered 400 with the store as it was; in both
    cases the collection is unchanged. *)
Theorem GET_list_spec ps now st :
  reachable st →
  let r := TodosRoute.GET ps now st in
  records r.2 = records st ∧
  match TodosRoute.validateQueryParams ps with
  | Throw msg => r = (mkResponse 400 (TodosRoute.ErrorBody msg now), st)
  | Return (s, q, includeStats) =>
      r.1 = mkResponse 200
              (TodosRoute.ListBody (recompute st s q) (length (recompute st s q))
                 q s now
                 (if includeStats then Some (getTodoStats st) else None))
  end.
Proof.
  intros Hr. pose proof (reachable_wf _ Hr) as Hwf. cbv zeta.
  unfold TodosRoute.GET.
  destruct (TodosRoute.validateQueryParams ps) as [[[s q] inc]|msg]; [|done].
  pose proof (getTodos_view s q st Hwf) as Hv.
  pose proof (getTodos_records s q st (wf_todos _ Hwf)) as Hrec.
  destruct (getTodos s q st) as [a st'] eqn:E. simpl in *.
  split; [done|]. rewrite Hv. by rewrite (getTodoStats_frame _ _ Hrec).
Qed.

Lemma GET_list_spec_witness :
  status (TodosRoute.GET (TodosRoute.mkQueryParams (Some "active") None (Some "true"))
            "now" sampleStore).1 = 200.
Proof.
  exact (f_equal status
           (proj2 (GET_list_spec
                     (TodosRoute.mkQueryParams (Some "active") None (Some "true"))
                     "now" sampleStore
                     (reachable_run init sampleOps reachable_init)))).
Defined.

(** ** The create request *)

Lemma validateTodoData_accepts fields t d :
  Js.lookupField "title" fields = JStr t →
  String.length t ≤ 200 →
  (Js.lookupField "description" fields = JUndefined ∧ d = "" ∨
   Js.lookupField "description" fields = JStr d ∧ String.length d ≤ 1000) →
  TodosRoute.validateTodoData (JObj fields) = Return (JsString.trim t, JsString.trim d).
Proof.
  intros Ht Hlen Hd. unfold TodosRoute.validateTodoData. cbn [Js.truthy Js.isObjectType negb orb].
  rewrite Ht. unfold MAX_TITLE_LENGTH, MAX_DESCRIPTION_LENGTH.
  apply Nat.ltb_ge in Hlen. rewrite Hlen.
  destruct Hd as [[-> ->] | [-> Hd]]; [done|].
  apply Nat.ltb_ge in Hd. rewrite Hd. by rewrite andb_false_r.
Qed.

Lemma validateTodoData_Return b t' d' :
  TodosRoute.validateTodoData b = Return (t', d') →
  ∃ fields t d,
    b = JObj fields ∧ Js.lookupField "title" fields = JStr t ∧
    String.length t ≤ 200 ∧ t' = JsString.trim t ∧ d' = JsString.trim d ∧
    (Js.lookupField "description" fields = JUndefined ∧ d = "" ∨
     Js.lookupField "description" fields = JStr d ∧ String.length d ≤ 1000).
Proof.
  unfold TodosRoute.validateTodoData, MAX_TITLE_LENGTH, MAX_DESCRIPTION_LENGTH.
  destruct b as [| |c|n|s|items|fields]; try done.
  { simpl. by destruct c. }
  { simpl. by destruct (n =? 0)%Z. }
  { simpl. by destruct s. }
  cbn [Js.truthy Js.isObjectType negb orb].
  destruct (Js.lookupField "title" fields) as [| |c|n|t|items|fs] eqn:Et; try done.
  destruct (200 <? String.length t) eqn:El; [done|]. apply Nat.ltb_ge in El.
  destruct (Js.lookupField "description" fields) as [| |c|n|d|items|fs] eqn:Ed.
  - simpl. intros [= <- <-]. exists fields, t, "". repeat split; auto.
  - done.
  - simpl. by destruct c.
  - simpl. by destruct (n =? 0)%Z.
  - destruct (negb (JsString.isEmpty d) && (1000 <? String.length d)) eqn:Eb; [done|].
    intros [= <- <-]. exists fields, t, d. repeat split; auto. right. split; [done|].
    apply andb_false_iff in Eb as [Eb|Eb].
    + destruct d; [simpl; lia | done].
    + by apply Nat.ltb_ge in Eb.
  - done.
  - done.
Qed.




(** ** Requests on one record *)

Section todo_route.
Import TodoRoute.

Lemma validateTodoId_Return p id0 :
  validateTodoId p = Return id0 ↔
  (∃ z, p = IdInt z ∧ (1 ≤ z ≤ 9007199254740991)%Z ∧ id0 = WholeId (Z.to_N z)) ∨
  (∃ z shown, p = IdFrac z shown ∧ (0 ≤ z < 9007199254740991)%Z ∧
              id0 = FracId shown).
Proof.
  unfold validateTodoId, MAX_ID_VALUE. split.
  - destruct p as [| |neg|z|z shown]; try done.
    + destruct (z <=? 0)%Z eqn:E1; [done|].
      destruct (9007199254740991 <? z)%Z eqn:E2; [done|]. simpl.
      intros [= <-]. left. exists z. split; [done|]. split; [lia | done].
    + destruct (z <? 0)%Z eqn:E1; [done|].
      destruct (9007199254740991 <=? z)%Z eqn:E2; [done|]. simpl.
      intros [= <-]. right. exists z, shown. split; [done|]. split; [lia | done].
  - intros [(z & -> & Hz & ->) | (z & shown & -> & Hz & ->)].
    + destruct (z <=? 0)%Z eqn:E1; [lia|].
      destruct (9007199254740991 <? z)%Z eqn:E2; [lia|]. done.
    + destruct (z <? 0)%Z eqn:E1; [lia|].
      destruct (9007199254740991 <=? z)%Z eqn:E2; [lia|]. done.
Qed.

Lemma patchUpdates_toggle_or_update parsed (x : TodoId) now st :
  (∀ n, x ≠ WholeId n) →
  match patchUpdates parsed with
  | None => toggleResponse x now st
  | Some updates => updateResponse x updates "updated" now st
  end = (handleNotFound x now, st).
Proof.
  intros Hx. destruct x as [n|shown]; [by destruct (Hx n)|].
  by destruct (patchUpdates parsed).
Qed.

(** X15: [validateTodoId] has no test for integers: it accepts exactly the
    numbers above 0 and up to 2^53 - 1, the integers from 1 to 2^53 - 1
    and the numbers in between that are not integers, and returns the
    number.  For every other id all four handlers answer 400 with its
    message, before they look at the body, and leave the store as it was.
    An accepted number that is not an integer is the id of no record: GET,
    PATCH and DELETE answer 404 for it, PUT 400 or 404, and none of them
    writes to the collection. *)
Theorem validateTodoId_spec p parsed now st :
  (∀ id0, validateTodoId p = Return id0 ↔
          (∃ z, p = IdInt z ∧ (1 ≤ z ≤ 9007199254740991)%Z ∧
                id0 = WholeId (Z.to_N z)) ∨
          (∃ z shown, p = IdFrac z shown ∧ (0 ≤ z < 9007199254740991)%Z ∧
                      id0 = FracId shown)) ∧
  (∀ msg, validateTodoId p = Throw msg →
          let answer := (mkResponse 400 (ErrorBody msg now), st) in
          msg ∈ ["Todo ID is required"; "Invalid todo ID format"] ∧
          GET p now st = answer ∧ PATCH p parsed now st = answer ∧
          DELETE p now st = answer ∧ PUT p parsed now st = answer) ∧
  (∀ shown, validateTodoId p = Return (FracId shown) →
            let notFound :=
              mkResponse 404
                (ErrorBody ("Todo with ID " +:+ shown +:+ " not found") now) in
            GET p now st = (notFound, (getTodosDefault st).2) ∧
            PATCH p parsed now st = (notFound, st) ∧
            DELETE p now st = (notFound, st) ∧
            (PUT p parsed now st).2 = st ∧
            (status (PUT p parsed now st).1 = 400 ∨
             (PUT p parsed now st).1 = notFound)).
Proof.
  split; [intros id0; apply validateTodoId_Return|]. split.
  - intros msg H. cbv zeta. unfold GET, PATCH, DELETE, PUT. rewrite H.
    split; [|done]. unfold validateTodoId in H.
    destruct p as [| |neg|z|z shown]; try (injection H as <-);
      try (by left); try (by right; left).
    + destruct (_ || _); [injection H as <-; right; left | done].
    + destruct (_ || _); [injection H as <-; right; left | done].
  - intros shown H. cbv zeta. unfold GET, PATCH, DELETE, PUT. rewrite H.
    split.
    { destruct (getTodosDefault st) as [a st']. simpl.
      assert (Hnone : ∀ rs, findById (FracId shown) rs = None).
      { intros rs. unfold findById. induction rs as [|todo rs IH]; [done|].
        by rewrite filter_cons, decide_False. }
      by rewrite Hnone. }
    split. { by apply patchUpdates_toggle_or_update. }
    split; [done|].
    destruct parsed as [b|]; [|by split; [|left]].
    destruct (Js.prop b "title") as [title0|msg]; [|by split; [|left]].
    destruct (negb (Js.truthy title0)); [by split; [|left]|].
    destruct (validateUpdateData _) as [u|msg]; [|by split; [|left]].
    by split; [|right].
Qed.

Lemma toggleResponse_spec id0 now st :
  wf st →
  match findIdx id0 (records st) with
  | None => toggleResponse (WholeId id0) now st = (handleNotFound (WholeId id0) now, st)
  | Some i =>
      toggleResponse (WholeId id0) now st
      = (mkResponse 200
           (TodoBody (flipCompleted (records st !!! i)) None now (Some "toggled")),
         (toggleTodo id0 st).2) ∧
      records (toggleTodo id0 st).2
      = <[i := flipCompleted (records st !!! i)]> (records st)
  end.
Proof.
  intros Hwf. rewrite <- findIndex_findIdx. unfold toggleResponse, withId.
  destruct (findIndex st id0) as [i|] eqn:E.
  - destruct (toggleTodo_records _ _ _ Hwf E) as (Hrec & Hret & Hobj).
    destruct (toggleTodo id0 st) as [res st'] eqn:Et. simpl in *.
    subst res. by rewrite Hobj.
  - unfold toggleTodo. by rewrite E.
Qed.

Lemma patchUpdates_rejected b msg :
  validateUpdateData b = Throw msg → patchUpdates (Some b) = None.
Proof.
  intros H. unfold patchUpdates. destruct (Js.truthy b); [|done]. simpl.
  destruct (if Js.keysLength b =? 1 then Js.hasToggle b else Return false)
    as [[|]|]; try done.
  by rewrite H.
Qed.

(** X16: a PATCH whose body [validateUpdateData] rejects (a field that is
    not allowed, a value of the wrong type, a title or description that
    is too long, no field at all) is not answered with that error: the
    handler toggles the record, answering 200 "toggled" with the flipped
    record, or 404 when no record has the id. *)
Theorem PATCH_rejected_body_toggles p id0 b msg now st :
  reachable st →
  validateTodoId p = Return (WholeId id0) →
  validateUpdateData b = Throw msg →
  let r := PATCH p (Some b) now st in
  match findIdx id0 (records st) with
  | None => r = (handleNotFound (WholeId id0) now, st)
  | Some i =>
      r.1 = mkResponse 200
              (TodoBody (flipCompleted (records st !!! i)) None now (Some "toggled")) ∧
      records r.2 = <[i := flipCompleted (records st !!! i)]> (records st)
  end.
Proof.
  intros Hr Hid Hb. cbv zeta. unfold PATCH.
  rewrite Hid, (patchUpdates_rejected _ _ Hb).
  pose proof (toggleResponse_spec id0 now st (reachable_wf _ Hr)) as H.
  destruct (findIdx id0 (records st)); [|done].
  destruct H as [-> Hrec]. done.
Qed.

Lemma PATCH_rejected_body_toggles_witness :
  (PATCH (IdInt 2) (Some (JObj [("title", JNum 7)])) "now" sampleStore).1
  = mkResponse 200
      (TodoBody (flipCompleted (records sampleStore !!! 1)) None "now" (Some "toggled")).
Proof.
  exact (proj1 (PATCH_rejected_body_toggles (IdInt 2) 2%N
                  (JObj [("title", JNum 7)]) "Title must be a string" "now"
                  sampleStore (reachable_run init sampleOps reachable_init)
                  eq_refl eq_refl)).
Defined.
End todo_route.

(** ** What [validateUpdateData] lets through *)

Section update_data.
Import TodoRoute.

Lemma validateField_Return key value acc acc' :
  validateField key value acc = Return acc' →
  allowedField key = true ∧
  ((key = "title" ∧ ∃ t0, value = JStr t0 ∧ String.length t0 ≤ 200 ∧
      acc' = mkUpdates (Some (JsString.trim t0)) (u_description acc) (u_completed acc)) ∨
   (key = "description" ∧
      ∃ d, (value = JNull ∧ d = "" ∨
            ∃ d0, value = JStr d0 ∧ d = JsString.trim d0 ∧ String.length d0 ≤ 1000) ∧
           acc' = mkUpdates (u_title acc) (Some d) (u_completed acc)) ∨
   (key = "completed" ∧ ∃ c, value = JBool c ∧
      acc' = mkUpdates (u_title acc) (u_description acc) (Some c))).
Proof.
  unfold validateField, MAX_TITLE_LENGTH, MAX_DESCRIPTION_LENGTH.
  destruct (allowedField key) eqn:Ea; [|done]. cbn [negb]. intros H.
  split; [done|].
  destruct (String.eqb_spec key "title") as [->|Ht].
  { left. split; [done|]. destruct value as [| |c|n|t0|items|fs]; try done.
    destruct (200 <? String.length t0) eqn:El; [done|]. apply Nat.ltb_ge in El.
    injection H as <-. by exists t0. }
  destruct (String.eqb_spec key "description") as [->|Hd].
  { right; left. split; [done|]. destruct value as [| |c|n|d0|items|fs]; try done.
    - injection H as <-. exists "". split; [by left | done].
    - destruct (negb (JsString.isEmpty d0) && (1000 <? String.length d0)) eqn:Eb;
        [done|]. injection H as <-.
      exists (JsString.trim d0). split.
      + right. exists d0. repeat split.
        apply andb_false_iff in Eb as [Eb|Eb].
        * destruct d0; [simpl; lia | done].
        * by apply Nat.ltb_ge in Eb.
      + by destruct d0. }
  right; right.
  assert (key = "completed") as ->.
  { unfold allowedField in Ea. rewrite !orb_true_iff, !String.eqb_eq in Ea.
    destruct Ea as [[?|?]|?]; done. }
  split; [done|]. destruct value as [| |c|n|t0|items|fs]; try done.
  injection H as <-. by exists c.
Qed.


Lemma validateFields_Return es acc u :
  validateFields es acc = Return u →
  Forall (λ kv, allowedField kv.1 = true) es ∧ fieldsFrom es acc u ∧
  (es ≠ [] → noFields u = false).
Proof.
  revert acc. induction es as [|[key value] es IH]; intros acc; simpl.
  - intros [= <-]. split; [constructor|]. split; [|done].
    repeat split; intros; by left.
  - destruct (validateField key value acc) as [acc'|] eqn:Ef; [|done].
    intros H. destruct (IH _ H) as (Hall & (Ht & Hd & Hc) & Hne).
    apply validateField_Return in Ef as (Ha & Hcase).
    split; [by constructor|].
    assert (Hset : noFields u = false).
    { destruct es as [|e es']; [|by apply Hne].
      simpl in H. injection H as <-.
      destruct Hcase as [(_ & t0 & _ & _ & ->) | [(_ & d & _ & ->) | (_ & c & _ & ->)]];
        unfold noFields; simpl; try done.
      - by destruct (u_title acc).
      - by destruct (u_title acc), (u_description acc). }
    split; [|done].
    destruct Hcase as [(-> & t0 & -> & Hlen & ->) |
                       [(-> & d & Hv & ->) | (-> & c & -> & ->)]]; simpl in *.
    + repeat split.
      * intros x Hu. destruct (Ht x Hu) as [[= <-] | (H1 & H2 & t1 & Hin & ->)].
        -- right. split; [apply trim_idempotent|]. split.
           { etrans; [apply length_trim | done]. }
           exists t0. split; [left | done].
        -- right. repeat split; try done. exists t1. split; [by right | done].
      * intros x Hu. destruct (Hd x Hu) as [? | (H1 & H2 & v & Hin & Hv)];
          [by left|]. right. repeat split; try done. exists v. split; [by right | done].
      * intros x Hu. destruct (Hc x Hu) as [? | Hin]; [by left | right; by right].
    + repeat split.
      * intros x Hu. destruct (Ht x Hu) as [? | (H1 & H2 & t1 & Hin & ->)];
          [by left|]. right. repeat split; try done. exists t1. split; [by right | done].
      * intros x Hu. destruct (Hd x Hu) as [[= <-] | (H1 & H2 & v & Hin & Hv')].
        -- right. destruct Hv as [[-> ->] | (d0 & -> & -> & Hlen)].
           ++ repeat split; [simpl; lia|]. exists JNull. split; [left | by left].
           ++ split; [apply trim_idempotent|]. split.
              { etrans; [apply length_trim | done]. }
              exists (JStr d0). split; [left|]. right. by exists d0.
        -- right. repeat split; try done. exists v. split; [by right | done].
      * intros x Hu. destruct (Hc x Hu) as [? | Hin]; [by left | right; by right].
    + repeat split.
      * intros x Hu. destruct (Ht x Hu) as [? | (H1 & H2 & t1 & Hin & ->)];
          [by left|]. right. repeat split; try done. exists t1. split; [by right | done].
      * intros x Hu. destruct (Hd x Hu) as [? | (H1 & H2 & v & Hin & Hv)];
          [by left|]. right. repeat split; try done. exists v. split; [by right | done].
      * intros x Hu. destruct (Hc x Hu) as [[= <-] | Hin];
          [right; left | right; by right].
Qed.

Lemma validateUpdateData_Return b u :
  validateUpdateData b = Return u →
  ∃ fields, b = JObj fields ∧ validateFields fields (mkUpdates None None None) = Return u.
Proof.
  unfold validateUpdateData.
  destruct b as [| |c|n|s|items|fields]; try done.
  - simpl. by destruct c.
  - simpl. by destruct (n =? 0)%Z.
  - simpl. by destruct s.
  - cbn [Js.truthy Js.isObjectType negb orb Js.entries].
    destruct items as [|x items]; [done|]. simpl.
    unfold validateField. by replace (allowedField (pretty 0)) with false by done.
  - cbn [Js.truthy Js.isObjectType negb orb Js.entries].
    destruct (validateFields fields _) as [u'|] eqn:E; [|done].
    destruct (noFields u'); [done|]. intros [= <-]. by exists fields.
Qed.

(** X17: when [validateUpdateData] returns, the body is a non-empty object
    whose keys are all among title, description, completed; at least one
    field of the updates is set; a set title is the trimmed title string
    of the body, at most 200 code units long; a set description is the
    trimmed description string of the body (the empty string for null),
    at most 1000 code units long; a set completed flag is the boolean of
    the body. *)
Theorem validateUpdateData_spec b u :
  validateUpdateData b = Return u →
  ∃ fields,
    b = JObj fields ∧ fields ≠ [] ∧
    Forall (λ kv, kv.1 ∈ ["title"; "description"; "completed"]) fields ∧
    noFields u = false ∧
    (∀ t, u_title u = Some t →
          JsString.trim t = t ∧ String.length t ≤ 200 ∧
          ∃ t0, ("title", JStr t0) ∈ fields ∧ t = JsString.trim t0) ∧
    (∀ d, u_description u = Some d →
          JsString.trim d = d ∧ String.length d ≤ 1000 ∧
          ∃ v, ("description", v) ∈ fields ∧
               (v = JNull ∧ d = "" ∨ ∃ d0, v = JStr d0 ∧ d = JsString.trim d0)) ∧
    (∀ c, u_completed u = Some c → ("completed", JBool c) ∈ fields).
Proof.
  intros H. destruct (validateUpdateData_Return _ _ H) as (fields & -> & Hf).
  destruct (validateFields_Return _ _ _ Hf) as (Hall & (Ht & Hd & Hc) & Hne).
  assert (Hnil : fields ≠ []).
  { intros ->. simpl in Hf. injection Hf as <-.
    unfold validateUpdateData in H. simpl in H. done. }
  exists fields. split; [done|]. split; [done|]. split.
  { eapply Forall_impl; [exact Hall|]. intros [k v] Hk. simpl in *.
    unfold allowedField in Hk. rewrite !orb_true_iff, !String.eqb_eq in Hk.
    rewrite !elem_of_cons. tauto. }
  split; [by apply Hne|]. split; [|split].
  - intros t Hu. by destruct (Ht t Hu) as [? | ?].
  - intros d Hu. by destruct (Hd d Hu) as [? | ?].
  - intros c Hu. by destruct (Hc c Hu) as [? | ?].
Qed.

Lemma validateUpdateData_spec_witness :
  ∃ fields, JObj [("title", JStr " Pay rent "); ("description", JNull)] = JObj fields ∧
            fields ≠ [].
Proof.
  destruct (validateUpdateData_spec
              (JObj [("title", JStr " Pay rent "); ("description", JNull)])
              (mkUpdates (Some "Pay rent") (Some "") None) eq_refl)
    as (fields & H1 & H2 & _).
  exists fields. split; [exact H1 | exact H2].
Defined.
End update_data.

(** ** Updates and replacements through the handlers *)

Section update_requests.
Import TodoRoute.

(** [PATCH] updates exactly when [validateUpdateData] accepts the body. *)
Lemma patchUpdates_accepted b u :
  validateUpdateData b = Return u → patchUpdates (Some b) = Some u.
Proof.
  intros H. destruct (validateUpdateData_Return _ _ H) as (fields & -> & Hf).
  destruct (validateFields_Return _ _ _ Hf) as (Hall & _ & _).
  unfold patchUpdates. cbn [Js.truthy negb Js.keysLength Js.hasToggle].
  destruct (length fields =? 1); [|by rewrite H].
  destruct (bool_decide ("toggle" ∈ fields.*1)) eqn:E; [|by rewrite H].
  apply bool_decide_eq_true in E. exfalso.
  apply list_elem_of_fmap in E as ([k v] & Hk & Hin). simpl in Hk. subst k.
  rewrite Forall_forall in Hall. by specialize (Hall _ Hin).
Qed.

Lemma updateResponse_spec id0 u action now st :
  wf st →
  match findIdx id0 (records st) with
  | None => updateResponse (WholeId id0) u action now st = (handleNotFound (WholeId id0) now, st)
  | Some i =>
      if titleBlank u
      then updateResponse (WholeId id0) u action now st
           = (mkResponse 400 (ErrorBody "Title is required" now), st)
      else (updateResponse (WholeId id0) u action now st).1
           = mkResponse 200
               (TodoBody (specUpdated (records st !!! i) u) None now (Some action)) ∧
           records (updateResponse (WholeId id0) u action now st).2
           = <[i := specUpdated (records st !!! i) u]> (records st)
  end.
Proof.
  intros Hwf. rewrite <- findIndex_findIdx. unfold updateResponse, withId.
  destruct (findIndex st id0) as [i|] eqn:E.
  - rewrite (updateTodo_found _ _ _ _ E). destruct (titleBlank u); [done|].
    pose proof (findIndex_Some _ _ _ E) as [Hi _].
    destruct (storeUpdated_records i (specUpdated (records st !!! i) u) st Hwf Hi)
      as [Hrec Hnew].
    unfold storeUpdated in *. simpl in *. by rewrite Hnew.
  - unfold updateTodo. by rewrite E.
Qed.

(** X18: a PATCH whose body [validateUpdateData] accepts is an update:
    404 when no record has the id; 400 "Title is required", with the
    store as it was, when the title of the body is all white space; else
    200 "updated" with the record that has the sanitised fields of the
    body in place of the old ones, at the old position. *)
Theorem PATCH_accepted_body_updates p id0 b u now st :
  reachable st →
  validateTodoId p = Return (WholeId id0) →
  validateUpdateData b = Return u →
  let r := PATCH p (Some b) now st in
  match findIdx id0 (records st) with
  | None => r = (handleNotFound (WholeId id0) now, st)
  | Some i =>
      let new := specUpdated (records st !!! i) u in
      if titleBlank u
      then r = (mkResponse 400 (ErrorBody "Title is required" now), st)
      else r.1 = mkResponse 200 (TodoBody new None now (Some "updated")) ∧
           records r.2 = <[i := new]> (records st)
  end.
Proof.
  intros Hr Hid Hb. cbv zeta. unfold PATCH.
  rewrite Hid, (patchUpdates_accepted _ _ Hb).
  apply updateResponse_spec. by apply reachable_wf.
Qed.

Lemma PATCH_accepted_body_updates_witness :
  PATCH (IdInt 2) (Some (JObj [("title", JStr "   "); ("completed", JBool true)]))
    "now" sampleStore
  = (mkResponse 400 (ErrorBody "Title is required" "now"), sampleStore).
Proof.
  exact (PATCH_accepted_body_updates (IdInt 2) 2%N
           (JObj [("title", JStr "   "); ("completed", JBool true)])
           (mkUpdates (Some "") None (Some true)) "now" sampleStore
           (reachable_run init sampleOps reachable_init) eq_refl eq_refl).
Defined.

(** X19: a PUT on an object body whose title is missing or falsy is
    answered 400 "Title is required for complete replacement".  With a
    title string of 1 to 200 code units and a description that is falsy
    or a string of at most 1000 code units, it replaces the record: the
    new record keeps the id and createdAt, has the trimmed title, the
    trimmed description (empty when the body has none) and the
    truthiness of the body's completed (false when the body has none);
    a title of white space only is answered 400 "Title is required" and
    an id without record 404, both with the store as it was. *)
Theorem PUT_spec p id0 fields now st :
  reachable st →
  validateTodoId p = Return (WholeId id0) →
  let r := PUT p (Some (JObj fields)) now st in
  let title0 := Js.lookupField "title" fields in
  let description0 := Js.lookupField "description" fields in
  let completed0 := Js.lookupField "completed" fields in
  (Js.truthy title0 = false →
   r = (mkResponse 400
          (ErrorBody "Title is required for complete replacement" now), st)) ∧
  (∀ t d,
     title0 = JStr t → t ≠ "" → String.length t ≤ 200 →
     (Js.truthy description0 = false ∧ d = "" ∨
      ∃ d0, description0 = JStr d0 ∧ d0 ≠ "" ∧ String.length d0 ≤ 1000 ∧
            d = JsString.trim d0) →
     match findIdx id0 (records st) with
     | None => r = (handleNotFound (WholeId id0) now, st)
     | Some i =>
         let old := records st !!! i in
         let new := mkTodo (id old) (JsString.trim t) d (Js.truthy completed0)
                      (createdAt old) in
         if JsString.isEmpty (JsString.trim t)
         then r = (mkResponse 400 (ErrorBody "Title is required" now), st)
         else r.1 = mkResponse 200 (TodoBody new None now (Some "replaced")) ∧
              records r.2 = <[i := new]> (records st)
     end).
Proof.
  intros Hr Hid. pose proof (reachable_wf _ Hr) as Hwf. cbv zeta.
  unfold PUT. rewrite Hid. cbn [Js.prop]. split.
  - intros Ht. by rewrite Ht.
  - intros t d Ht Hne Hlen Hd. rewrite Ht.
    assert (Htr : Js.truthy (JStr t) = true) by by destruct t.
    rewrite Htr. cbn [negb].
    assert (Hv : validateUpdateData
                   (JObj [("title", JStr t);
                          ("description",
                           orElse (Js.lookupField "description" fields) (JStr ""));
                          ("completed",
                           JBool (Js.truthy (Js.lookupField "completed" fields)))])
                 = Return (mkUpdates (Some (JsString.trim t)) (Some d)
                             (Some (Js.truthy (Js.lookupField "completed" fields))))).
    { unfold validateUpdateData, orElse.
      cbn [Js.truthy Js.isObjectType negb orb Js.entries validateFields].
      unfold validateField at 1. cbn [allowedField String.eqb Ascii.eqb negb orb].
      simpl (allowedField "title"). cbn [negb].
      simpl ("title" =? "title")%string. cbv iota.
      unfold MAX_TITLE_LENGTH. apply Nat.ltb_ge in Hlen. rewrite Hlen.
      destruct Hd as [[Hf ->] | (d0 & Hd0 & Hne0 & Hlen0 & ->)].
      - rewrite Hf. simpl. done.
      - rewrite Hd0. assert (Js.truthy (JStr d0) = true) as -> by by destruct d0.
        unfold validateField at 1. simpl (allowedField "description"). cbn [negb].
        simpl ("description" =? "title")%string.
        simpl ("description" =? "description")%string. cbv iota.
        unfold MAX_DESCRIPTION_LENGTH. apply Nat.ltb_ge in Hlen0. rewrite Hlen0.
        rewrite andb_false_r.
        assert (JsString.isEmpty d0 = false) as -> by by destruct d0.
        simpl. done. }
    rewrite Hv.
    pose proof (updateResponse_spec id0
                  (mkUpdates (Some (JsString.trim t)) (Some d)
                     (Some (Js.truthy (Js.lookupField "completed" fields))))
                  "replaced" now st Hwf) as H.
    destruct (findIdx id0 (records st)) as [i|]; [|done].
    unfold titleBlank, specUpdated in H. simpl in H.
    rewrite trim_idempotent in H. exact H.
Qed.

Lemma PUT_spec_witness :
  PUT (IdInt 2) (Some (JObj [("description", JStr "rent")])) "now" sampleStore
  = (mkResponse 400 (ErrorBody "Title is required for complete replacement" "now"),
     sampleStore).
Proof.
  exact (proj1 (PUT_spec (IdInt 2) 2%N [("description", JStr "rent")] "now"
                  sampleStore (reachable_run init sampleOps reachable_init)
                  eq_refl) eq_refl).
Defined.
End update_requests.

(** ** From the form to the store *)

(** X20: a form that [validateForm] finds without errors is accepted all
    the way: the body [handleSubmit] sends passes [validateTodoData] and
    [createTodo], so the create request is answered 201 and stores the
    trimmed title and description; and [validateForm] never reports
    "Title must be at least 1 character". *)
Theorem form_submit_accepted title0 description0 createdAt now st :
  reachable st →
  let errors := CreateTodoForm.validateForm title0 description0 in
  CreateTodoForm.e_title errors ≠ Some "Title must be at least 1 character" ∧
  (CreateTodoForm.hasErrors errors = false →
   let r := TodosRoute.POST
              (Some (CreateTodoForm.requestBody title0 description0))
              createdAt now st in
   let new := mkTodo (idCounter st) (JsString.trim title0)
                (JsString.trim description0) false createdAt in
   r.1 = mkResponse 201 (TodosRoute.CreatedBody new now) ∧
   records r.2 = records st ++ [new]).
Proof.
  intros Hr. pose proof (reachable_wf _ Hr) as Hwf. cbv zeta.
  unfold CreateTodoForm.validateForm, CreateTodoForm.hasErrors,
    CreateTodoForm.MIN_TITLE_LENGTH, MAX_TITLE_LENGTH, MAX_DESCRIPTION_LENGTH.
  cbn [CreateTodoForm.e_title CreateTodoForm.e_description].
  destruct (JsString.trim title0) as [|c t] eqn:Et; [done|].
  change (JsString.isEmpty (String c t)) with false. cbv iota.
  assert (H1 : (String.length (String c t) <? 1) = false)
    by (apply Nat.ltb_ge; cbn [String.length]; lia).
  rewrite H1.
  destruct (200 <? String.length (String c t)) eqn:El; [done|]. split; [done|].
  destruct (1000 <? String.length description0) eqn:Ed; [done|]. intros _.
  apply Nat.ltb_ge in El, Ed.
  unfold TodosRoute.POST, CreateTodoForm.requestBody.
  rewrite (validateTodoData_accepts _ (JsString.trim title0)
             (JsString.trim description0)); [|done|by rewrite Et|].
  - rewrite !trim_idempotent, <- Et.
    assert (Hne' : JsString.trim (JsString.trim title0) ≠ "")
      by by rewrite trim_idempotent, Et.
    pose proof (createTodo_records (JsString.trim title0)
                  (JsString.trim description0)
                  createdAt st Hwf Hne') as Hrec.
    rewrite createTodo_return in * by done. simpl in *.
    rewrite !trim_idempotent in *. split; [|done].
    unfold getObj. simpl. by rewrite list_lookup_total_middle.
  - right. split; [done|]. etrans; [apply length_trim | done].
Qed.

Lemma form_submit_accepted_witness :
  status (TodosRoute.POST (Some (CreateTodoForm.requestBody " Walk dog " " park "))
            "created" "now" sampleStore).1 = 201.
Proof.
  exact (f_equal status
           (proj1 (proj2 (form_submit_accepted " Walk dog " " park " "created" "now"
                            sampleStore
                            (reachable_run init sampleOps reachable_init))
                     eq_refl))).
Defined.

(** ** What the handlers let into the store *)

Section served_states.
Import TodoRoute.

Lemma patchUpdates_Some parsed u :
  patchUpdates parsed = Some u → ∃ b, validateUpdateData b = Return u.
Proof.
  unfold patchUpdates. destruct parsed as [b|]; [|done].
  destruct (Js.truthy b); [|done]. simpl.
  destruct (if Js.keysLength b =? 1 then Js.hasToggle b else Return false)
    as [[|]|]; try done.
  destruct (validateUpdateData b) as [u'|] eqn:E; [|done].
  intros [= <-]. by exists b.
Qed.

Lemma validateUpdateData_bounded b u :
  validateUpdateData b = Return u → updatesBounded u.
Proof.
  intros H. destruct (validateUpdateData_Return _ _ H) as (fields & -> & Hf).
  destruct (validateFields_Return _ _ _ Hf) as (_ & (Ht & Hd & _) & _).
  split.
  - intros t Hu. destruct (Ht t Hu) as [? | (Htr & Hlen & _)]; [done|].
    by rewrite Htr.
  - intros d Hu. destruct (Hd d Hu) as [? | (Htr & Hlen & _)]; done.
Qed.

Lemma toggleResponse_state id0 now st :
  (toggleResponse (WholeId id0) now st).2 = step st (OpToggle id0).
Proof.
  unfold toggleResponse, withId, step.
  by destruct (toggleTodo id0 st) as [[[l|]|msg] st'].
Qed.

Lemma updateResponse_state id0 u action now st :
  (updateResponse (WholeId id0) u action now st).2 = step st (OpUpdate id0 u).
Proof.
  unfold updateResponse, withId, step.
  by destruct (updateTodo id0 u st) as [[[l|]|msg] st'].
Qed.

(** Each request is one call of the store, with arguments within the
    limits, or none. *)
Lemma serve_step st rq now : ∃ o, opBounded o ∧ serve st rq now = step st o.
Proof.
  destruct rq as [ps|parsed createdAt|p|p parsed|p|p parsed]; unfold serve.
  - unfold TodosRoute.GET.
    destruct (TodosRoute.validateQueryParams ps) as [[[s q] inc]|msg].
    + exists (OpGetTodos s q). split; [done|]. unfold step.
      by destruct (getTodos s q st).
    + by exists OpStats.
  - unfold TodosRoute.POST. destruct parsed as [b|]; [|by exists OpStats].
    destruct (TodosRoute.validateTodoData b) as [[t d]|msg] eqn:Ev;
      [|by exists OpStats].
    exists (OpCreate t d createdAt). split.
    + apply validateTodoData_Return in Ev
        as (fields & t0 & d0 & -> & _ & Hlen & -> & -> & Hd).
      simpl. rewrite !trim_idempotent. split.
      { etrans; [apply length_trim | done]. }
      split; [|done]. etrans; [apply length_trim|].
      destruct Hd as [[_ ->] | [_ Hd]]; [simpl; lia | done].
    + unfold step. by destruct (createTodo t d createdAt st) as [[l|msg] st'].
  - unfold GET. destruct (validateTodoId p) as [id0|msg]; [|by exists OpStats].
    exists (OpGetTodos "all" ""). split; [done|]. unfold getTodosDefault, step.
    destruct (getTodos "all" "" st) as [a st']. simpl.
    by destruct (findById id0 (view st' a)).
  - unfold PATCH.
    destruct (validateTodoId p) as [[id0|shown]|msg]; [| |by exists OpStats].
    + destruct (patchUpdates parsed) as [u|] eqn:E.
      * exists (OpUpdate id0 u). split; [|apply updateResponse_state].
        apply patchUpdates_Some in E as [b Hb]. simpl.
        by eapply validateUpdateData_bounded.
      * exists (OpToggle id0). split; [done | apply toggleResponse_state].
    + exists OpStats. split; [done|]. by destruct (patchUpdates parsed).
  - unfold DELETE.
    destruct (validateTodoId p) as [[id0|shown]|msg]; [|by exists OpStats..].
    exists (OpDelete id0). split; [done|]. unfold withId, step.
    by destruct (deleteTodo id0 st) as [[[l|]|msg] st'].
  - unfold PUT. destruct (validateTodoId p) as [x|msg]; [|by exists OpStats].
    destruct parsed as [b|]; [|by exists OpStats].
    destruct (Js.prop b "title") as [title0|msg]; [|by exists OpStats].
    destruct (negb (Js.truthy title0)); [by exists OpStats|].
    destruct (validateUpdateData _) as [u|msg] eqn:E; [|by exists OpStats].
    destruct x as [id0|shown]; [|by exists OpStats].
    exists (OpUpdate id0 u). split; [|apply updateResponse_state].
    simpl. by eapply validateUpdateData_bounded.
Qed.

Lemma absStep_bounded s o :
  opBounded o → Forall recordBounded s.1 → Forall recordBounded (absStep s o).1.
Proof.
  destruct s as [rs c]. simpl. intros Ho H. destruct o; simpl; try done.
  - destruct (JsString.isEmpty _); simpl; [done|].
    apply Forall_app. split; [done|]. by apply Forall_singleton.
  - destruct (findIdx id0 rs) as [i|] eqn:E; [|done].
    destruct (titleBlank updates); [done|]. simpl.
    apply findIdx_Some in E as (Hi & _).
    assert (Hold : recordBounded (rs !!! i)).
    { rewrite Forall_forall in H. apply H.
      eapply list_elem_of_lookup_2. by apply list_lookup_lookup_total_lt. }
    apply Forall_insert; [done|]. destruct Ho as [Ht Hd].
    destruct Hold as (H1 & H2 & H3). unfold recordBounded, specUpdated. simpl.
    split.
    { destruct (u_title updates) as [t|]; [by apply Ht | done]. }
    destruct (u_description updates) as [d|]; [by apply Hd | done].
  - destruct (findIdx id0 rs) as [i|] eqn:E; [|done]. simpl.
    apply findIdx_Some in E as (Hi & _). apply Forall_insert; [done|].
    rewrite Forall_forall in H. apply (H (rs !!! i)).
    eapply list_elem_of_lookup_2. by apply list_lookup_lookup_total_lt.
  - destruct (findIdx id0 rs) as [i|]; [|done]. simpl. by apply Forall_delete.
  - apply Forall_fmap. eapply Forall_impl; [exact H|]. intros t Ht.
    simpl. unfold toggleIfIn. by destruct (decide _).
  - apply Forall_forall. intros t [_ Ht]%list_elem_of_filter.
    rewrite Forall_forall in H. by apply H.
Qed.

Lemma served_reachable st : served st → reachable st.
Proof.
  induction 1 as [|st rq now Hs IH]; [constructor|].
  destruct (serve_step st rq now) as (o & _ & ->). by constructor.
Qed.

(** X21: in every state that requests to the six handlers lead to, each
    record has a title of at most 200 code units and a description of at
    most 1000 code units with no white space at either end; and the state
    is one the store operations reach, so its ids are distinct and its
    titles non-empty and trimmed. *)
Theorem served_records_bounded st :
  served st →
  reachable st ∧
  Forall (λ todo, String.length (title todo) ≤ 200 ∧
                  String.length (description todo) ≤ 1000 ∧
                  JsString.trim (description todo) = description todo)
         (records st).
Proof.
  intros Hs. split; [by apply served_reachable|].
  induction Hs as [|st rq now Hs IH]; [constructor|].
  destruct (serve_step st rq now) as (o & Ho & ->).
  change (records (step st o)) with (contents (step st o)).1.
  rewrite step_abs by by apply reachable_wf, served_reachable.
  by apply (absStep_bounded (contents st) o).
Qed.

Lemma served_records_bounded_witness :
  reachable (serve init (ReqCreate (Some (JObj [("title", JStr " a ")])) "t") "now").
Proof.
  exact (proj1 (served_records_bounded _
                  (served_step init
                     (ReqCreate (Some (JObj [("title", JStr " a ")])) "t") "now"
                     served_init))).
Defined.
End served_states.

(** ** Reading and deleting one record *)

Section by_id.
Import TodoRoute.

Lemma findById_findIdx id0 rs :
  findById (WholeId id0) rs = (λ i, rs !!! i) <$> findIdx id0 rs.
Proof.
  unfold findById. induction rs as [|todo rs IH]; [done|].
  rewrite filter_cons. simpl in *. destruct (N.eqb_spec (id todo) id0) as [E|E].
  - by rewrite decide_True.
  - rewrite decide_False, IH by done. by destruct (findIdx id0 rs).
Qed.

(** X22: with an accepted integer id, [GET] and [DELETE] answer 404
    exactly when no record has the id; otherwise both answer 200 with the first record of
    that id, and [DELETE] removes that record and keeps the others in
    order. [GET] leaves the collection as it is. *)
Theorem by_id_GET_DELETE_spec p id0 now st :
  reachable st →
  validateTodoId p = Return (WholeId id0) →
  let g := GET p now st in
  let d := DELETE p now st in
  records g.2 = records st ∧
  match findIdx id0 (records st) with
  | Some i =>
      let todo := records st !!! i in
      id todo = id0 ∧
      g.1 = mkResponse 200 (TodoBody todo None now None) ∧
      d.1 = mkResponse 200
              (TodoBody todo
                 (Some ("Todo with ID " +:+ pretty id0 +:+ " has been deleted"))
                 now (Some "deleted")) ∧
      records d.2 = base.delete i (records st)
  | None =>
      g.1 = handleNotFound (WholeId id0) now ∧ d.1 = handleNotFound (WholeId id0) now ∧ d.2 = st
  end.
Proof.
  intros Hr Hp. pose proof (reachable_wf _ Hr) as Hwf. cbv zeta.
  unfold GET, DELETE. rewrite Hp.
  pose proof (getTodos_view "all" "" st Hwf) as Hv.
  pose proof (getTodos_records "all" "" st (wf_todos _ Hwf)) as Hrec.
  unfold getTodosDefault. destruct (getTodos "all" "" st) as [a st'].
  simpl in Hv, Hrec. rewrite Hv.
  change (recompute st "all" "") with (records st).
  rewrite findById_findIdx.
  destruct (findIdx id0 (records st)) as [i|] eqn:E; simpl.
  - split; [done|]. pose proof E as E'. rewrite <- findIndex_findIdx in E'.
    destruct (deleteTodo_records _ _ _ Hwf E') as (Hdel & Hret & Hobj).
    apply findIdx_Some in E as (_ & Hid & _).
    destruct (deleteTodo id0 st) as [o st'']. simpl in *. subst o.
    simpl. by rewrite Hobj.
  - split; [done|]. apply findIdx_None in E.
    by rewrite (deleteTodo_missing _ _ E).
Qed.

Lemma by_id_GET_DELETE_spec_witness :
  records (GET (IdInt 2) "now" sampleStore).2 = records sampleStore.
Proof.
  exact (proj1 (by_id_GET_DELETE_spec (IdInt 2) 2%N "now" sampleStore
                  (reachable_run init sampleOps reachable_init) eq_refl)).
Defined.
End by_id.
